(** * Defect tracker: a shallow embedding of [defect_tracker.py]

    The program keeps two SQLite tables, [defects] and [defect_history],
    and drives them through the methods of the class [DefectTracker].
    The embedding models

    - a table as the list of its rows in rowid order (SQLite stores and
      scans them in that order), a nullable column as an [option];
    - the connection as an explicit store value passed in and out of
      every method;
    - [datetime.now()] as a timestamp argument, one per call made by the
      method, in call order; a timestamp is the instant in milliseconds,
      the resolution of SQLite's [julianday];
    - a Python dictionary built from [GROUP BY] rows as a [gmap];
    - a raised exception as a [Raise] result next to the store as it was
      when the exception left the method.

    Floating point is abstracted to exact rationals ([Q]): the value of
    [AVG(julianday(..) - julianday(..))] is the exact mean in days.  The
    doubles of the program agree with it when the two instants of a
    defect are equal (the difference is then exactly zero); otherwise
    they can differ from it in the last place, which shows where the
    exact mean is a one-decimal tie and where differences of opposite
    sign cancel exactly but not in doubles.  Nothing below is stated
    about the program at such inputs. *)

From Stdlib Require Import ZArith QArith Qround Lia.
From stdpp Require Import base option list sorting gmap strings pretty fin_maps.

Local Open Scope string_scope.
Local Open Scope list_scope.
Local Open Scope Z_scope.

(** ** Enumerations *)

Module DefectSeverity.
Inductive t := CRITICAL | MAJOR | MODERATE | MINOR | TRIVIAL.

Definition value (s : t) : Z :=
  match s with
  | CRITICAL => 1 | MAJOR => 2 | MODERATE => 3 | MINOR => 4 | TRIVIAL => 5
  end.
End DefectSeverity.

Module DefectStatus.
Inductive t :=
| NEW | OPEN | ASSIGNED | IN_PROGRESS | FIXED
| VERIFIED | CLOSED | REOPENED | DEFERRED | REJECTED.

Definition value (s : t) : string :=
  match s with
  | NEW => "New" | OPEN => "Open" | ASSIGNED => "Assigned"
  | IN_PROGRESS => "In Progress" | FIXED => "Fixed"
  | VERIFIED => "Verified" | CLOSED => "Closed"
  | REOPENED => "Reopened" | DEFERRED => "Deferred"
  | REJECTED => "Rejected"
  end.

#[global] Instance eq_dec : EqDecision t.
Proof. solve_decision. Defined.
End DefectStatus.

Module DefectPriority.
Inductive t := IMMEDIATE | HIGH | MEDIUM | LOW.

Definition value (p : t) : Z :=
  match p with IMMEDIATE => 1 | HIGH => 2 | MEDIUM => 3 | LOW => 4 end.
End DefectPriority.

(** ** Rows *)

Definition timestamp := Z.

(** A row of [defects]; the columns are those of [CREATE TABLE defects],
    [NOT NULL] columns are plain, the others optional. *)
Module Defect.
Record t := mk {
  id : Z;
  title : string;
  description : option string;
  severity : Z;
  priority : Z;
  status : string;
  module : option string;
  found_by : string;
  assigned_to : option string;
  found_date : timestamp;
  fixed_date : option timestamp;
  verified_date : option timestamp;
  closed_date : option timestamp;
  environment : option string;
  steps_to_reproduce : option string;
  expected_result : option string;
  actual_result : option string;
  root_cause : option string;
  resolution : option string;
  test_case_id : option string;
  build_version : option string;
  attachments : option string
}.

(** [UPDATE defects SET col = v]: one setter per column the program
    ever updates. *)
Definition set_status (v : string) (d : t) : t :=
  mk (id d) (title d) (description d) (severity d) (priority d) v
     (module d) (found_by d) (assigned_to d) (found_date d) (fixed_date d)
     (verified_date d) (closed_date d) (environment d)
     (steps_to_reproduce d) (expected_result d) (actual_result d)
     (root_cause d) (resolution d) (test_case_id d) (build_version d)
     (attachments d).

Definition set_assigned_to (v : option string) (d : t) : t :=
  mk (id d) (title d) (description d) (severity d) (priority d) (status d)
     (module d) (found_by d) v (found_date d) (fixed_date d)
     (verified_date d) (closed_date d) (environment d)
     (steps_to_reproduce d) (expected_result d) (actual_result d)
     (root_cause d) (resolution d) (test_case_id d) (build_version d)
     (attachments d).

Definition set_fixed_date (v : option timestamp) (d : t) : t :=
  mk (id d) (title d) (description d) (severity d) (priority d) (status d)
     (module d) (found_by d) (assigned_to d) (found_date d) v
     (verified_date d) (closed_date d) (environment d)
     (steps_to_reproduce d) (expected_result d) (actual_result d)
     (root_cause d) (resolution d) (test_case_id d) (build_version d)
     (attachments d).

Definition set_verified_date (v : option timestamp) (d : t) : t :=
  mk (id d) (title d) (description d) (severity d) (priority d) (status d)
     (module d) (found_by d) (assigned_to d) (found_date d) (fixed_date d)
     v (closed_date d) (environment d)
     (steps_to_reproduce d) (expected_result d) (actual_result d)
     (root_cause d) (resolution d) (test_case_id d) (build_version d)
     (attachments d).

Definition set_closed_date (v : option timestamp) (d : t) : t :=
  mk (id d) (title d) (description d) (severity d) (priority d) (status d)
     (module d) (found_by d) (assigned_to d) (found_date d) (fixed_date d)
     (verified_date d) v (environment d)
     (steps_to_reproduce d) (expected_result d) (actual_result d)
     (root_cause d) (resolution d) (test_case_id d) (build_version d)
     (attachments d).

Definition set_root_cause (v : option string) (d : t) : t :=
  mk (id d) (title d) (description d) (severity d) (priority d) (status d)
     (module d) (found_by d) (assigned_to d) (found_date d) (fixed_date d)
     (verified_date d) (closed_date d) (environment d)
     (steps_to_reproduce d) (expected_result d) (actual_result d)
     v (resolution d) (test_case_id d) (build_version d)
     (attachments d).

Definition set_resolution (v : option string) (d : t) : t :=
  mk (id d) (title d) (description d) (severity d) (priority d) (status d)
     (module d) (found_by d) (assigned_to d) (found_date d) (fixed_date d)
     (verified_date d) (closed_date d) (environment d)
     (steps_to_reproduce d) (expected_result d) (actual_result d)
     (root_cause d) v (test_case_id d) (build_version d)
     (attachments d).
End Defect.

(** A row of [defect_history]. *)
Module History.
Record t := mk {
  id : Z;
  defect_id : Z;
  changed_by : string;
  change_date : timestamp;
  field_changed : option string;
  old_value : option string;
  new_value : option string;
  comment : option string
}.
End History.

(** ** The store

    The two tables and, for each, the counter SQLite keeps in
    [sqlite_sequence] for an [AUTOINCREMENT] key.  Foreign keys are
    declared but not enforced: the program never issues
    [PRAGMA foreign_keys = ON], and SQLite leaves enforcement off unless
    asked. *)
Record db := mkDb {
  defects : list Defect.t;
  defect_history : list History.t;
  defects_seq : Z;
  history_seq : Z
}.

(** The store after [_create_tables] on a new file. *)
Definition empty_db : db := mkDb [] [] 0 0.

(** The rowid an [AUTOINCREMENT] insert receives: one more than the
    largest rowid the table holds or has ever held. *)
Definition next_rowid (seq : Z) (rowids : list Z) : Z :=
  Z.max seq (foldr Z.max 0 rowids) + 1.

(** [SELECT .. FROM defects WHERE id = ?] followed by [fetchone()]. *)
Definition select_by_id (s : db) (defect_id : Z) : option Defect.t :=
  head (filter (λ d, Defect.id d = defect_id) (defects s)).

(** [UPDATE defects SET .. WHERE id = ?]. *)
Definition update_where_id (defect_id : Z) (set : Defect.t → Defect.t)
    (rows : list Defect.t) : list Defect.t :=
  (λ d, if decide (Defect.id d = defect_id) then set d else d) <$> rows.

(** [SELECT * FROM defect_history WHERE defect_id = ?]: the log of one
    defect, oldest entry first. *)
Definition history_of (s : db) (defect_id : Z) : list History.t :=
  filter (λ h, History.defect_id h = defect_id) (defect_history s).

(** ** Results of a method call

    The two exceptions [create_defect] can raise on its arguments:
    [AttributeError] from [severity.value] or [priority.value] on
    [None], and [sqlite3.IntegrityError] from a [NOT NULL] column bound
    to [None]. *)
Inductive exn := AttributeError | IntegrityError.

Inductive result (A : Type) :=
| Return (a : A)
| Raise (e : exn).
Arguments Return {A} a.
Arguments Raise {A} e.

(** The error kinds the specification names, and the kind an exception
    of the program falls under: [sqlite3.IntegrityError] comes from the
    store, which refuses the row; [AttributeError] comes from no check
    of the program and from no store, and falls under none. *)
Inductive error_kind := ValidationError | NotFound | StoreError.

Definition kind_of (e : exn) : option error_kind :=
  match e with
  | IntegrityError => Some StoreError
  | AttributeError => None
  end.

(** The optional keyword arguments [create_defect] reads with
    [kwargs.get]. *)
Module Kwargs.
Record t := mk {
  environment : option string;
  steps_to_reproduce : option string;
  expected_result : option string;
  actual_result : option string;
  test_case_id : option string;
  build_version : option string
}.

Definition empty : t := mk None None None None None None.
End Kwargs.

(** Python truth value of an optional string: [None] and [''] are
    false. *)
Definition truthy (o : option string) : bool :=
  match o with
  | Some v => negb (String.eqb v "")
  | None => false
  end.

(** [str(x)] for an optional string, as an f-string renders it. *)
Definition py_str (o : option string) : string :=
  match o with
  | Some v => v
  | None => "None"
  end.

(** ** The methods of [DefectTracker] *)

(** [_log_change]: append one row to [defect_history], stamped with the
    clock reading [now]. *)
Definition _log_change (s : db) (now : timestamp) (defect_id : Z)
    (changed_by : string)
    (field_changed old_value new_value comment : option string) : db :=
  let rowid := next_rowid (history_seq s) (History.id <$> defect_history s) in
  mkDb (defects s)
       (defect_history s ++
          [History.mk rowid defect_id changed_by now
                      field_changed old_value new_value comment])
       (defects_seq s) rowid.

(** [create_defect].  The arguments the signature requires may still be
    [None] at run time, so they are optional here.  [now_found] is the
    clock reading for [found_date], [now_log] the later one taken by
    [_log_change]. *)
Definition create_defect (s : db) (now_found now_log : timestamp)
    (title description : option string)
    (severity : option DefectSeverity.t) (priority : option DefectPriority.t)
    (found_by module : option string) (kwargs : Kwargs.t) : db * result Z :=
  let found_date := now_found in
  (* the parameter tuple evaluates severity.value, then priority.value *)
  match severity with
  | None => (s, Raise AttributeError)
  | Some severity =>
  match priority with
  | None => (s, Raise AttributeError)
  | Some priority =>
  (* INSERT INTO defects: title and found_by are NOT NULL *)
  match title with
  | None => (s, Raise IntegrityError)
  | Some title =>
  match found_by with
  | None => (s, Raise IntegrityError)
  | Some found_by =>
      let defect_id := next_rowid (defects_seq s) (Defect.id <$> defects s) in
      let row :=
        Defect.mk defect_id title description
          (DefectSeverity.value severity) (DefectPriority.value priority)
          (DefectStatus.value DefectStatus.NEW) module found_by None
          found_date None None None
          (Kwargs.environment kwargs) (Kwargs.steps_to_reproduce kwargs)
          (Kwargs.expected_result kwargs) (Kwargs.actual_result kwargs)
          None None
          (Kwargs.test_case_id kwargs) (Kwargs.build_version kwargs) None in
      let s := mkDb (defects s ++ [row]) (defect_history s)
                    defect_id (history_seq s) in
      (_log_change s now_log defect_id found_by None None
         (Some (DefectStatus.value DefectStatus.NEW)) (Some "Defect created"),
       Return defect_id)
  end end end end.

(** [update_status].  [now_date] is the clock reading of the branch that
    stamps a date column, [now_log] the one taken by [_log_change]. *)
Definition update_status (s : db) (now_date now_log : timestamp)
    (defect_id : Z) (new_status : DefectStatus.t) (changed_by : string)
    (comment : option string) : db * bool :=
  match select_by_id s defect_id with
  | None => (s, false)
  | Some result =>
      let old_status := Defect.status result in
      let set := Defect.set_status (DefectStatus.value new_status) in
      let set :=
        match new_status with
        | DefectStatus.FIXED =>
            λ d, Defect.set_fixed_date (Some now_date) (set d)
        | DefectStatus.VERIFIED =>
            λ d, Defect.set_verified_date (Some now_date) (set d)
        | DefectStatus.CLOSED =>
            λ d, Defect.set_closed_date (Some now_date) (set d)
        | _ => set
        end in
      let s := mkDb (update_where_id defect_id set (defects s))
                    (defect_history s) (defects_seq s) (history_seq s) in
      (_log_change s now_log defect_id changed_by (Some "status")
         (Some old_status) (Some (DefectStatus.value new_status)) comment,
       true)
  end.

(** [assign_defect]. *)
Definition assign_defect (s : db) (now_log : timestamp) (defect_id : Z)
    (assignee assigned_by : string) (comment : option string) : db * bool :=
  match select_by_id s defect_id with
  | None => (s, false)
  | Some result =>
      let old_assignee := Defect.assigned_to result in
      let set :=
        if decide (Defect.status result = DefectStatus.value DefectStatus.NEW)
        then
          let new_status := DefectStatus.value DefectStatus.ASSIGNED in
          λ d, Defect.set_status new_status
                 (Defect.set_assigned_to (Some assignee) d)
        else Defect.set_assigned_to (Some assignee) in
      let s := mkDb (update_where_id defect_id set (defects s))
                    (defect_history s) (defects_seq s) (history_seq s) in
      (_log_change s now_log defect_id assigned_by (Some "assigned_to")
         old_assignee (Some assignee) comment,
       true)
  end.

(** [add_resolution].  There is no lookup of the row first: the
    [UPDATE] touches whatever rows carry the id, and the log entry is
    written whenever [resolved_by] is true. *)
Definition add_resolution (s : db) (now_log : timestamp) (defect_id : Z)
    (resolution : string) (root_cause resolved_by : option string)
    : db * bool :=
  let set d :=
    Defect.set_root_cause root_cause
      (Defect.set_resolution (Some resolution) d) in
  let s := mkDb (update_where_id defect_id set (defects s))
                (defect_history s) (defects_seq s) (history_seq s) in
  match resolved_by with
  | Some who =>
      if truthy resolved_by
      then (_log_change s now_log defect_id who (Some "resolution")
              None (Some resolution)
              (Some ("Root cause: " +:+ py_str root_cause)),
            true)
      else (s, true)
  | None => (s, true)
  end.

(** ** [search_defects]

    SQL comparison is three-valued: [col = ?] is NULL when the column
    is NULL, and a row is returned only when the whole [WHERE] clause
    is true. *)
Definition sql_eq `{EqDecision A} (col : option A) (param : A) : option bool :=
  (λ v, bool_decide (v = param)) <$> col.

Definition sql_and (a b : option bool) : option bool :=
  match a, b with
  | Some false, _ | _, Some false => Some false
  | Some true, Some true => Some true
  | _, _ => None
  end.

(** The keyword arguments [search_defects] looks at.  A field is [None]
    when the key is not in [criteria], and otherwise holds the value
    bound to the [?] of its clause: text for [status], [assigned_to]
    and [module], an integer for [severity] and [priority], as [main]
    and [export_defects] pass them. *)
Module Criteria.
Record t := mk {
  status : option string;
  severity : option Z;
  priority : option Z;
  assigned_to : option string;
  module : option string
}.

Definition empty : t := mk None None None None None.
End Criteria.

(** One [' AND col = ?'] fragment together with its parameter. *)
Inductive clause :=
| StatusEq (v : string)
| SeverityEq (v : Z)
| PriorityEq (v : Z)
| AssignedToEq (v : string)
| ModuleEq (v : string).

Definition eval_clause (d : Defect.t) (c : clause) : option bool :=
  match c with
  | StatusEq v => sql_eq (Some (Defect.status d)) v
  | SeverityEq v => sql_eq (Some (Defect.severity d)) v
  | PriorityEq v => sql_eq (Some (Defect.priority d)) v
  | AssignedToEq v => sql_eq (Defect.assigned_to d) v
  | ModuleEq v => sql_eq (Defect.module d) v
  end.

(** [WHERE 1=1 AND c1 AND c2 ..], evaluated left to right. *)
Definition eval_where (query : list clause) (d : Defect.t) : option bool :=
  foldl (λ acc c, sql_and acc (eval_clause d c)) (Some true) query.

(** [cursor.execute(query, params)] and [fetchall()]. *)
Definition execute_select (query : list clause) (rows : list Defect.t)
    : list Defect.t :=
  filter (λ d, eval_where query d = Some true) rows.

Definition search_defects (s : db) (criteria : Criteria.t) : list Defect.t :=
  let query : list clause := [] in
  let query :=
    match Criteria.status criteria with
    | Some v => query ++ [StatusEq v] | None => query end in
  let query :=
    match Criteria.severity criteria with
    | Some v => query ++ [SeverityEq v] | None => query end in
  let query :=
    match Criteria.priority criteria with
    | Some v => query ++ [PriorityEq v] | None => query end in
  let query :=
    match Criteria.assigned_to criteria with
    | Some v => query ++ [AssignedToEq v] | None => query end in
  let query :=
    match Criteria.module criteria with
    | Some v => query ++ [ModuleEq v] | None => query end in
  execute_select query (defects s).

(** ** [get_metrics] *)

(** [dict(cursor.fetchall())] over [SELECT k, COUNT( * ) .. GROUP BY k]:
    every key that occurs is bound to its number of occurrences. *)
Definition group_count (keys : list string) : gmap string nat :=
  foldr (λ k m, <[k := S (default 0%nat (m !! k))]> m) ∅ keys.

Definition by_status (s : db) : gmap string nat :=
  group_count (Defect.status <$> defects s).

(** [.. WHERE module IS NOT NULL GROUP BY module]. *)
Definition by_module (s : db) : gmap string nat :=
  group_count (omap Defect.module (defects s)).

(** The sum of the counts of a dictionary. *)
Definition total (m : gmap string nat) : nat :=
  map_fold (λ _ n acc, (n + acc)%nat) 0%nat m.

(** [julianday(later) - julianday(earlier)], in days. *)
Definition julianday_diff (later earlier : timestamp) : Q :=
  Qmake (later - earlier) 86400000.

(** The values [AVG] ranges over:
    [WHERE status = 'Closed' AND closed_date IS NOT NULL]. *)
Definition resolution_days (s : db) : list Q :=
  omap (λ d,
          if decide (Defect.status d = "Closed")
          then (λ c, julianday_diff c (Defect.found_date d))
                 <$> Defect.closed_date d
          else None)
       (defects s).

(** SQL [AVG]: NULL over no rows. *)
Definition sql_avg (xs : list Q) : option Q :=
  match xs with
  | [] => None
  | _ => Some (foldr Qplus 0%Q xs / inject_Z (Z.of_nat (length xs)))%Q
  end.

(** Nearest integer, ties to the even one. *)
Definition round_half_even (q : Q) : Z :=
  let f := Qfloor q in
  match (q - inject_Z f ?= Qmake 1 2)%Q with
  | Lt => f
  | Gt => f + 1
  | Eq => if Z.even f then f else f + 1
  end.

(** [round(x, 1)]. *)
Definition py_round1 (x : Q) : Q :=
  Qred (Qmake (round_half_even (x * inject_Z 10)) 10).

(** [round(result[0], 1) if result[0] else None]: a float is false
    exactly when it is zero. *)
Definition avg_resolution_days (s : db) : option Q :=
  let result := sql_avg (resolution_days s) in
  match result with
  | Some avg => if Qeq_bool avg 0 then None else Some (py_round1 avg)
  | None => None
  end.

(** [SELECT COUNT( * ) FROM defects WHERE status = 'Reopened']. *)
Definition reopened_count (s : db) : nat :=
  length (filter (λ d, Defect.status d = "Reopened") (defects s)).

(** The entries of the dictionary [get_metrics] returns that are keyed
    by text or are plain numbers ([by_severity] and [by_priority], keyed
    by enumeration names, are left out). *)
Module Metrics.
Record t := mk {
  by_status : gmap string nat;
  avg_resolution_days : option Q;
  by_module : gmap string nat;
  reopened_count : nat
}.
End Metrics.

Definition get_metrics (s : db) : Metrics.t :=
  Metrics.mk (by_status s) (avg_resolution_days s) (by_module s)
             (reopened_count s).

(** ** Sequences of mutating calls *)

(** One call of a mutating method on an existing store, with the clock
    readings it consumes. *)
Inductive call :=
| UpdateStatus (now_date now_log : timestamp) (defect_id : Z)
    (new_status : DefectStatus.t) (changed_by : string)
    (comment : option string)
| AssignDefect (now_log : timestamp) (defect_id : Z)
    (assignee assigned_by : string) (comment : option string)
| AddResolution (now_log : timestamp) (defect_id : Z) (resolution : string)
    (root_cause resolved_by : option string).

Definition run_call (s : db) (c : call) : db * bool :=
  match c with
  | UpdateStatus now_date now_log defect_id new_status changed_by comment =>
      update_status s now_date now_log defect_id new_status changed_by comment
  | AssignDefect now_log defect_id assignee assigned_by comment =>
      assign_defect s now_log defect_id assignee assigned_by comment
  | AddResolution now_log defect_id resolution root_cause resolved_by =>
      add_resolution s now_log defect_id resolution root_cause resolved_by
  end.

(** Run the calls in order; the results are collected in call order. *)
Fixpoint run (s : db) (calls : list call) : db * list bool :=
  match calls with
  | [] => (s, [])
  | c :: calls =>
      let '(s, r) := run_call s c in
      let '(s, rs) := run s calls in
      (s, r :: rs)
  end.

(** The defect a call is made against. *)
Definition call_target (c : call) : Z :=
  match c with
  | UpdateStatus _ _ defect_id _ _ _ => defect_id
  | AssignDefect _ defect_id _ _ _ => defect_id
  | AddResolution _ defect_id _ _ _ => defect_id
  end.

(** The reading of the clock [_log_change] would take in a call. *)
Definition call_log_time (c : call) : timestamp :=
  match c with
  | UpdateStatus _ now_log _ _ _ _ => now_log
  | AssignDefect now_log _ _ _ _ => now_log
  | AddResolution now_log _ _ _ _ => now_log
  end.

(** Whether a call reaches [_log_change] once the row exists: always,
    except [add_resolution] without a true [resolved_by]. *)
Definition call_logs (c : call) : bool :=
  match c with
  | AddResolution _ _ _ _ resolved_by => truthy resolved_by
  | _ => true
  end.

(** ** Stores the methods build *)

(** One method call that can write: [create_defect] on any arguments,
    or one of the three mutating methods. *)
Inductive step : db → db → Prop :=
| step_create s now_found now_log title description severity priority
    found_by module kwargs :
    step s (create_defect s now_found now_log title description severity
              priority found_by module kwargs).1
| step_call s c :
    step s (run_call s c).1.

(** The stores reached from a new one by method calls. *)
Definition reachable (s : db) : Prop := rtc step empty_db s.

(** ** [get_metrics]: counts by severity and by priority *)

(** [DefectSeverity(sev)]: the member with that value; [None] stands
    for the [ValueError] raised when there is none. *)
Definition DefectSeverity_of_value (v : Z) : option DefectSeverity.t :=
  match v with
  | 1 => Some DefectSeverity.CRITICAL
  | 2 => Some DefectSeverity.MAJOR
  | 3 => Some DefectSeverity.MODERATE
  | 4 => Some DefectSeverity.MINOR
  | 5 => Some DefectSeverity.TRIVIAL
  | _ => None
  end.

(** [.name] of a member of [DefectSeverity]. *)
Definition DefectSeverity_name (sv : DefectSeverity.t) : string :=
  match sv with
  | DefectSeverity.CRITICAL => "CRITICAL"
  | DefectSeverity.MAJOR => "MAJOR"
  | DefectSeverity.MODERATE => "MODERATE"
  | DefectSeverity.MINOR => "MINOR"
  | DefectSeverity.TRIVIAL => "TRIVIAL"
  end.

(** [DefectPriority(pri)] and [.name]. *)
Definition DefectPriority_of_value (v : Z) : option DefectPriority.t :=
  match v with
  | 1 => Some DefectPriority.IMMEDIATE
  | 2 => Some DefectPriority.HIGH
  | 3 => Some DefectPriority.MEDIUM
  | 4 => Some DefectPriority.LOW
  | _ => None
  end.

Definition DefectPriority_name (p : DefectPriority.t) : string :=
  match p with
  | DefectPriority.IMMEDIATE => "IMMEDIATE"
  | DefectPriority.HIGH => "HIGH"
  | DefectPriority.MEDIUM => "MEDIUM"
  | DefectPriority.LOW => "LOW"
  end.

(** The rows of [SELECT k, COUNT( * ) .. GROUP BY k] for an integer
    column, keyed by the value of the column. *)
Definition group_count_int (keys : list Z) : gmap Z nat :=
  foldr (λ k m, <[k := S (default 0%nat (m !! k))]> m) ∅ keys.

(** The sum of the counts of such rows. *)
Definition total_int (m : gmap Z nat) : nat :=
  map_fold (λ _ n acc, (n + acc)%nat) 0%nat m.

(** The loop [for v, count in rows: counts[Enum(v).name] = count]; it
    stops with the [ValueError] of the first row that has no member. *)
Definition name_counts {T} (member : Z → option T) (name : T → string)
    (rows : gmap Z nat) : option (gmap string nat) :=
  map_fold (λ v count acc,
              counts ← acc;
              m ← member v;
              Some (<[name m := count]> counts))
           (Some ∅) rows.

Definition by_severity (s : db) : option (gmap string nat) :=
  name_counts DefectSeverity_of_value DefectSeverity_name
    (group_count_int (Defect.severity <$> defects s)).

Definition by_priority (s : db) : option (gmap string nat) :=
  name_counts DefectPriority_of_value DefectPriority_name
    (group_count_int (Defect.priority <$> defects s)).

(** ** [export_defects] *)

(** A value of a row dictionary as [sqlite3] hands it to Python. *)
Inductive sql_value :=
| Null
| Integer (z : Z)
| Text (t : string).

(** Python truth value and [str] of such a value. *)
Definition py_truth (v : sql_value) : bool :=
  match v with
  | Null => false
  | Integer z => negb (z =? 0)
  | Text t => negb (String.eqb t "")
  end.

Definition str (v : sql_value) : string :=
  match v with
  | Null => "None"
  | Integer z => pretty z
  | Text t => t
  end.

Definition of_text (o : option string) : sql_value :=
  match o with
  | Some t => Text t
  | None => Null
  end.

(** The newline and the double quote. *)
Definition nl : string := String (Ascii.ascii_of_nat 10) "".
Definition dquote : string := String (Ascii.ascii_of_nat 34) "".

(** [c * n] for a one-character string. *)
Fixpoint string_repeat (c : string) (n : nat) : string :=
  match n with
  | O => ""
  | S n => c +:+ string_repeat c n
  end.

(** The defects [export_defects] works on: those of the given status
    when [status_filter] is true, all of them otherwise. *)
Definition export_selection (s : db) (status_filter : option string)
    : list Defect.t :=
  match status_filter with
  | Some status =>
      if truthy status_filter
      then search_defects s (Criteria.mk (Some status) None None None None)
      else search_defects s Criteria.empty
  | None => search_defects s Criteria.empty
  end.

(** One table row of the markdown report; [None] stands for the
    [ValueError] of [DefectSeverity(..)] or [DefectPriority(..)]. *)
Definition markdown_row (d : Defect.t) : option string :=
  severity ←
    (if py_truth (Integer (Defect.severity d))
     then DefectSeverity_name <$> DefectSeverity_of_value (Defect.severity d)
     else Some "");
  priority ←
    (if py_truth (Integer (Defect.priority d))
     then DefectPriority_name <$> DefectPriority_of_value (Defect.priority d)
     else Some "");
  Some ("| " +:+ str (Integer (Defect.id d)) +:+ " | " +:+ Defect.title d
        +:+ " | " +:+ severity +:+ " | "
        +:+ priority +:+ " | " +:+ Defect.status d +:+ " | "
        +:+ str (of_text (Defect.assigned_to d)) +:+ " |" +:+ nl).

(** One entry of the text report. *)
Definition text_entry (d : Defect.t) : option string :=
  severity ← DefectSeverity_name <$> DefectSeverity_of_value (Defect.severity d);
  Some ("ID: " +:+ str (Integer (Defect.id d)) +:+ nl
        +:+ "Title: " +:+ Defect.title d +:+ nl
        +:+ "Severity: " +:+ severity +:+ nl
        +:+ "Status: " +:+ Defect.status d +:+ nl
        +:+ string_repeat "-" 30 +:+ nl).

Section export.
(** The text a date column holds for an instant
    ([datetime.isoformat()]), and [json.dumps(.., indent=2,
    default=str)] on a list of row dictionaries. *)
Variable isoformat : timestamp → string.
Variable json_dumps : list (list (string * sql_value)) → string.

Definition of_date (o : option timestamp) : sql_value :=
  match o with
  | Some t => Text (isoformat t)
  | None => Null
  end.

(** [dict(zip(columns, row))]: the columns in table order. *)
Definition row_dict (d : Defect.t) : list (string * sql_value) :=
  [("id", Integer (Defect.id d));
   ("title", Text (Defect.title d));
   ("description", of_text (Defect.description d));
   ("severity", Integer (Defect.severity d));
   ("priority", Integer (Defect.priority d));
   ("status", Text (Defect.status d));
   ("module", of_text (Defect.module d));
   ("found_by", Text (Defect.found_by d));
   ("assigned_to", of_text (Defect.assigned_to d));
   ("found_date", Text (isoformat (Defect.found_date d)));
   ("fixed_date", of_date (Defect.fixed_date d));
   ("verified_date", of_date (Defect.verified_date d));
   ("closed_date", of_date (Defect.closed_date d));
   ("environment", of_text (Defect.environment d));
   ("steps_to_reproduce", of_text (Defect.steps_to_reproduce d));
   ("expected_result", of_text (Defect.expected_result d));
   ("actual_result", of_text (Defect.actual_result d));
   ("root_cause", of_text (Defect.root_cause d));
   ("resolution", of_text (Defect.resolution d));
   ("test_case_id", of_text (Defect.test_case_id d));
   ("build_version", of_text (Defect.build_version d));
   ("attachments", of_text (Defect.attachments d))].

(** One data line of the CSV export. *)
Definition csv_row (d : Defect.t) : string :=
  String.concat ","
    ((λ v, dquote +:+ (if py_truth v then str v else "") +:+ dquote)
       <$> (snd <$> row_dict d))
  +:+ nl.

Definition export_defects (s : db) (format_type : string)
    (status_filter : option string) : option string :=
  let defects := export_selection s status_filter in
  if decide (format_type = "json") then
    Some (json_dumps (row_dict <$> defects))
  else if decide (format_type = "csv") then
    match defects with
    | [] => Some "No defects found"
    | first :: _ =>
        Some (String.concat "," (fst <$> row_dict first) +:+ nl
              +:+ String.concat "" (csv_row <$> defects))
    end
  else if decide (format_type = "markdown") then
    let output :=
      "# Defect Report" +:+ nl +:+ nl
      +:+ "**Total Defects:** " +:+ pretty (length defects) +:+ nl +:+ nl in
    match defects with
    | [] => Some output
    | _ =>
        rows ← mapM markdown_row defects;
        Some (output
              +:+ "| ID | Title | Severity | Priority | Status | Assigned To |"
              +:+ nl
              +:+ "|-----|-------|----------|----------|--------|-------------|"
              +:+ nl
              +:+ String.concat "" rows)
    end
  else
    entries ← mapM text_entry defects;
    Some ("DEFECT LIST" +:+ nl +:+ string_repeat "=" 50 +:+ nl +:+ nl
          +:+ String.concat "" entries).
End export.

(** * Vocabulary of the statements *)

(** ** Predicates *)

(** A column update that leaves the key alone. *)
Definition keeps_id (set : Defect.t → Defect.t) : Prop :=
  ∀ d, Defect.id (set d) = Defect.id d.

(** The dates a row carries after [update_status]: the column of the
    new status takes the clock reading, set before or not. *)
Definition stamped (new_status : DefectStatus.t) (now_date : timestamp)
    (d : Defect.t) : option timestamp * option timestamp * option timestamp :=
  (if decide (new_status = DefectStatus.FIXED)
   then Some now_date else Defect.fixed_date d,
   if decide (new_status = DefectStatus.VERIFIED)
   then Some now_date else Defect.verified_date d,
   if decide (new_status = DefectStatus.CLOSED)
   then Some now_date else Defect.closed_date d).

(** The declared foreign key: every log row names a defect of the
    table. *)
Definition foreign_keys_hold (s : db) : Prop :=
  ∀ h, h ∈ defect_history s →
       ∃ d, d ∈ defects s ∧ Defect.id d = History.defect_id h.

(** What the specification asks of one criterion: nothing when it is
    absent, equality with the field when it is given. *)
Definition criterion_holds {A} (given field : option A) : Prop :=
  match given with
  | None => True
  | Some v => field = Some v
  end.

#[global] Instance criterion_holds_dec `{EqDecision A} (given field : option A) :
  Decision (criterion_holds given field).
Proof. destruct given; simpl; apply _. Defined.

(** A defect matches a criteria set when every given criterion holds
    of it. *)
Definition matches (criteria : Criteria.t) (d : Defect.t) : Prop :=
  criterion_holds (Criteria.status criteria) (Some (Defect.status d)) ∧
  criterion_holds (Criteria.severity criteria) (Some (Defect.severity d)) ∧
  criterion_holds (Criteria.priority criteria) (Some (Defect.priority d)) ∧
  criterion_holds (Criteria.assigned_to criteria) (Defect.assigned_to d) ∧
  criterion_holds (Criteria.module criteria) (Defect.module d).

#[global] Instance matches_dec criteria d : Decision (matches criteria d).
Proof. unfold matches. apply _. Defined.

(** The calls that append to the log of [defect_id]. *)
Definition appends_to (defect_id : Z) (c : call) : Prop :=
  call_target c = defect_id ∧ call_logs c = true.

#[global] Instance appends_to_dec defect_id c : Decision (appends_to defect_id c).
Proof. unfold appends_to. apply _. Defined.

(** ** Scenarios *)

(** The scenario Fixed, Reopened, Fixed on the first defect of a new
    store, with the clock at 10 and at 20 for the two Fixed stamps. *)
Definition refix_created : db :=
  (create_defect empty_db 0 1 (Some "crash on save") (Some "steps")
     (Some DefectSeverity.MAJOR) (Some DefectPriority.HIGH) (Some "ann")
     None Kwargs.empty).1.
Definition refix_fixed : db :=
  (update_status refix_created 10 11 1 DefectStatus.FIXED "bob" None).1.
Definition refix_reopened : db :=
  (update_status refix_fixed 12 13 1 DefectStatus.REOPENED "ann" None).1.
Definition refix_fixed_again : db :=
  (update_status refix_reopened 20 21 1 DefectStatus.FIXED "bob" None).1.

(** One defect, found at the instant 0. *)
Definition found_at_zero : db :=
  (create_defect empty_db 0 0 (Some "crash on save") None
     (Some DefectSeverity.MAJOR) (Some DefectPriority.HIGH) (Some "ann")
     None Kwargs.empty).1.

(** The same defect closed five days later, and closed within the
    millisecond it was found in. *)
Definition closed_after_five_days : db :=
  (update_status found_at_zero 432000000 432000000 1 DefectStatus.CLOSED
     "ann" None).1.
Definition closed_at_once : db :=
  (update_status found_at_zero 0 0 1 DefectStatus.CLOSED "ann" None).1.

(** One defect on a new store, then one resolution recorded without
    [resolved_by]. *)
Definition silent_calls : list call :=
  [AddResolution 5 1 "patched" (Some "race") None].

(** ** Predicates on rows and calls *)

(** The three enumerated columns hold a value of their enumeration. *)
Definition valid_row (d : Defect.t) : Prop :=
  (∃ st, Defect.status d = DefectStatus.value st) ∧
  (∃ sv, Defect.severity d = DefectSeverity.value sv) ∧
  (∃ p, Defect.priority d = DefectPriority.value p).

(** The columns no method updates. *)
Definition frozen (d : Defect.t) :=
  (Defect.id d, Defect.title d, Defect.description d, Defect.severity d,
   Defect.priority d, Defect.module d, Defect.found_by d,
   Defect.found_date d, Defect.environment d, Defect.steps_to_reproduce d,
   Defect.expected_result d, Defect.actual_result d, Defect.test_case_id d,
   Defect.build_version d, Defect.attachments d).

(** The column update a call applies to the rows under its id, given
    what the lookup of that id returned before the call. *)
Definition call_update (row : option Defect.t) (c : call)
    : Defect.t → Defect.t :=
  match c, row with
  | UpdateStatus now_date _ _ DefectStatus.FIXED _ _, Some _ =>
      λ d, Defect.set_fixed_date (Some now_date)
             (Defect.set_status (DefectStatus.value DefectStatus.FIXED) d)
  | UpdateStatus now_date _ _ DefectStatus.VERIFIED _ _, Some _ =>
      λ d, Defect.set_verified_date (Some now_date)
             (Defect.set_status (DefectStatus.value DefectStatus.VERIFIED) d)
  | UpdateStatus now_date _ _ DefectStatus.CLOSED _ _, Some _ =>
      λ d, Defect.set_closed_date (Some now_date)
             (Defect.set_status (DefectStatus.value DefectStatus.CLOSED) d)
  | UpdateStatus _ _ _ new_status _ _, Some _ =>
      Defect.set_status (DefectStatus.value new_status)
  | AssignDefect _ _ assignee _ _, Some result =>
      if decide (Defect.status result = "New")
      then λ d, Defect.set_status "Assigned"
                  (Defect.set_assigned_to (Some assignee) d)
      else Defect.set_assigned_to (Some assignee)
  | AddResolution _ _ resolution root_cause _, _ =>
      λ d, Defect.set_root_cause root_cause
             (Defect.set_resolution (Some resolution) d)
  | _, None => λ d, d
  end.

(** A call that writes a log row for an id no defect carries. *)
Definition orphan_write (s : db) (c : call) : Prop :=
  match c with
  | AddResolution _ defect_id _ _ resolved_by =>
      truthy resolved_by = true ∧ select_by_id s defect_id = None
  | _ => False
  end.

(** The criteria set [{status: st}]. *)
Definition by_status_criteria (st : string) : Criteria.t :=
  Criteria.mk (Some st) None None None None.

(** [stricter] gives every criterion [weaker] gives, with the same
    value, and possibly more. *)
Definition criteria_extend (weaker stricter : Criteria.t) : Prop :=
  (∀ v, Criteria.status weaker = Some v → Criteria.status stricter = Some v) ∧
  (∀ v, Criteria.severity weaker = Some v →
        Criteria.severity stricter = Some v) ∧
  (∀ v, Criteria.priority weaker = Some v →
        Criteria.priority stricter = Some v) ∧
  (∀ v, Criteria.assigned_to weaker = Some v →
        Criteria.assigned_to stricter = Some v) ∧
  (∀ v, Criteria.module weaker = Some v → Criteria.module stricter = Some v).


(** A new store on which [add_resolution] was called, with an actor,
    for id 1 before any defect exists. *)
Definition orphan_logged : db :=
  (add_resolution empty_db 5 1 "patched" None (Some "qa")).1.

(** * Properties *)

(** ** Tactics *)

(** Every setter of [Defect] keeps the key, and so does every column
    update the methods build from them. *)
Ltac keeps_id :=
  unfold keeps_id; intros [];
  repeat match goal with |- context [decide ?P] => destruct (decide P) end;
  reflexivity.

(** Case analysis on whether the call at hand appends to the log. *)
Ltac case_appends :=
  match goal with
  | |- context [decide (?a = ?b ∧ ?c = true)] =>
      destruct (decide (a = b ∧ c = true)) as [[? ?]|?]
  end.

(** ** Rows and lookups *)

(** The first row with a given key, after an update by key. *)
Lemma head_filter_update (rows : list Defect.t) (target key : Z) set :
  keeps_id set →
  head (filter (λ d, Defect.id d = key) (update_where_id target set rows))
  = (if decide (key = target) then set else id)
      <$> head (filter (λ d, Defect.id d = key) rows).
Proof.
  intros Hset. unfold update_where_id.
  induction rows as [|d rows IH]; [done|].
  rewrite fmap_cons, !filter_cons.
  destruct (decide (Defect.id d = target)) as [Ht|Ht].
  - rewrite Hset. destruct (decide (Defect.id d = key)) as [Hk|Hk]; [|done].
    simpl. rewrite decide_True by congruence. done.
  - destruct (decide (Defect.id d = key)) as [Hk|Hk]; [|done].
    simpl. rewrite decide_False by congruence. done.
Qed.

Lemma update_where_id_length target set rows :
  length (update_where_id target set rows) = length rows.
Proof. unfold update_where_id. by rewrite length_fmap. Qed.

(** The log of one defect after [_log_change]. *)
Lemma history_of_log_change s now defect_id who f o n c key :
  history_of (_log_change s now defect_id who f o n c) key
  = history_of s key ++
      (if decide (defect_id = key)
       then [History.mk
               (next_rowid (history_seq s) (History.id <$> defect_history s))
               defect_id who now f o n c]
       else []).
Proof.
  unfold history_of, _log_change. simpl. rewrite filter_app.
  by f_equal.
Qed.

Lemma select_by_id_log_change s now defect_id who f o n c key :
  select_by_id (_log_change s now defect_id who f o n c) key
  = select_by_id s key.
Proof. done. Qed.

(** Every key in a table is below the next rowid. *)
Lemma next_rowid_fresh seq (rowids : list Z) k :
  k ∈ rowids → k < next_rowid seq rowids.
Proof.
  unfold next_rowid. induction rowids as [|r rowids IH]; intros Hk.
  - by apply elem_of_nil in Hk.
  - apply elem_of_cons in Hk as [->|Hk]; simpl; [lia|].
    specialize (IH Hk). lia.
Qed.

Lemma filter_none {A} (P : A → Prop) `{!∀ x, Decision (P x)} (l : list A) :
  (∀ x, x ∈ l → ¬ P x) → filter P l = [].
Proof.
  intros Hnone. induction l as [|x l IH]; [done|].
  rewrite filter_cons_False.
  - apply IH. intros y Hy. apply Hnone. by right.
  - apply Hnone. by left.
Qed.

(** ** [update_status] *)

Lemma update_status_unknown s now_date now_log defect_id new_status who c :
  select_by_id s defect_id = None →
  update_status s now_date now_log defect_id new_status who c = (s, false).
Proof. intros H. unfold update_status. by rewrite H. Qed.

Lemma assign_defect_unknown s now_log defect_id assignee who c :
  select_by_id s defect_id = None →
  assign_defect s now_log defect_id assignee who c = (s, false).
Proof. intros H. unfold assign_defect. by rewrite H. Qed.

(** C1, as stated, fails: after Fixed (clock 10), Reopened, Fixed
    (clock 20) the row's [fixed_date] is the second reading, not the
    one recorded by the first transition. *)
Lemma update_status_refix_overwrites :
  Defect.fixed_date <$> select_by_id refix_fixed 1 = Some (Some 10) ∧
  Defect.fixed_date <$> select_by_id refix_fixed_again 1 = Some (Some 20) ∧
  Defect.fixed_date <$> select_by_id refix_fixed_again 1
  ≠ Defect.fixed_date <$> select_by_id refix_fixed 1.
Proof. vm_compute. split_and!; [done|done|discriminate]. Qed.

(** C1, amended: for every defect, [update_status] succeeds, sets the
    status, and sets [fixed_date], [verified_date] or [closed_date] to
    the current clock reading exactly when the new status is Fixed,
    Verified or Closed, whether or not that date was set before; the
    two other dates, and all three for any other status, are kept. *)
Theorem update_status_stamps_date s now_date now_log defect_id new_status
    who c d :
  select_by_id s defect_id = Some d →
  (update_status s now_date now_log defect_id new_status who c).2 = true ∧
  ∃ d',
    select_by_id
      (update_status s now_date now_log defect_id new_status who c).1
      defect_id = Some d' ∧
    Defect.status d' = DefectStatus.value new_status ∧
    (Defect.fixed_date d', Defect.verified_date d', Defect.closed_date d')
    = stamped new_status now_date d.
Proof.
  intros Hd. unfold update_status. rewrite Hd. simpl. split; [done|].
  rewrite select_by_id_log_change. unfold select_by_id in *. simpl.
  rewrite head_filter_update, Hd by (destruct new_status; keeps_id).
  rewrite decide_True by done. simpl. eexists. split; [done|].
  by destruct new_status.
Qed.

Lemma update_status_stamps_date_witness :
  ∃ d,
    select_by_id refix_reopened 1 = Some d ∧
    Defect.fixed_date d = Some 10 ∧
    (update_status refix_reopened 20 21 1 DefectStatus.FIXED "bob" None).2
    = true ∧
    ∃ d',
      select_by_id
        (update_status refix_reopened 20 21 1 DefectStatus.FIXED "bob" None).1
        1 = Some d' ∧
      Defect.status d' = DefectStatus.value DefectStatus.FIXED ∧
      (Defect.fixed_date d', Defect.verified_date d', Defect.closed_date d')
      = stamped DefectStatus.FIXED 20 d.
Proof.
  eexists. split; [reflexivity|]. split; [reflexivity|].
  apply (update_status_stamps_date refix_reopened 20 21 1
           DefectStatus.FIXED "bob" None).
  reflexivity.
Defined.

(** ** Unknown ids *)

(** [add_resolution] on an id no row carries: the table of defects is
    as before, yet the call answers [True] and, given a true
    [resolved_by], one log row is written for the unknown id. *)
Lemma add_resolution_unknown s now_log defect_id resolution root_cause who :
  select_by_id s defect_id = None →
  truthy (Some who) = true →
  let '(s', r) :=
    add_resolution s now_log defect_id resolution root_cause (Some who) in
  r = true ∧
  defects s' = defects s ∧
  history_of s' defect_id
  = history_of s defect_id ++
      [History.mk
         (next_rowid (history_seq s) (History.id <$> defect_history s))
         defect_id who now_log (Some "resolution") None (Some resolution)
         (Some ("Root cause: " +:+ py_str root_cause))].
Proof.
  intros Hnone Hwho. unfold add_resolution. rewrite Hwho.
  split; [done|]. split.
  - simpl. unfold select_by_id in Hnone. unfold update_where_id.
    induction (defects s) as [|d rows IH]; [done|].
    rewrite filter_cons in Hnone. rewrite fmap_cons.
    destruct (decide (Defect.id d = defect_id)); [done|].
    by rewrite IH.
  - rewrite history_of_log_change. by rewrite decide_True.
Qed.

(** C2: [update_status] and [assign_defect] on an id that is not in a
    new store answer [False] and leave it as it was, but
    [add_resolution] on the same id answers [True], and with a
    [resolved_by] it leaves a row in [defect_history]. *)
Theorem add_resolution_unknown_id_writes :
  select_by_id empty_db 999999 = None ∧
  update_status empty_db 5 6 999999 DefectStatus.FIXED "qa" None
  = (empty_db, false) ∧
  assign_defect empty_db 5 999999 "dev" "qa" None = (empty_db, false) ∧
  add_resolution empty_db 5 999999 "patched" None None = (empty_db, true) ∧
  add_resolution empty_db 5 999999 "patched" None (Some "qa")
  = (mkDb []
       [History.mk 1 999999 "qa" 5 (Some "resolution") None (Some "patched")
          (Some "Root cause: None")]
       0 1,
     true).
Proof. by vm_compute. Qed.

(** ** [create_defect] *)

(** C5, as stated, fails: with the title missing [create_defect] ends
    with the [IntegrityError] of the store, and with the severity
    missing with an [AttributeError]; neither is a validation error,
    and no check of the required fields comes before the first of
    them. *)
Lemma create_defect_raises_no_validation_error :
  create_defect empty_db 0 1 None (Some "no title")
    (Some DefectSeverity.MAJOR) (Some DefectPriority.HIGH) (Some "ann")
    None Kwargs.empty
  = (empty_db, Raise IntegrityError) ∧
  kind_of IntegrityError = Some StoreError ∧
  kind_of IntegrityError ≠ Some ValidationError ∧
  create_defect empty_db 0 1 (Some "crash on save") (Some "no severity")
    None (Some DefectPriority.HIGH) (Some "ann") None Kwargs.empty
  = (empty_db, Raise AttributeError) ∧
  kind_of AttributeError ≠ Some ValidationError.
Proof. vm_compute. split_and!; [done|done|discriminate|done|discriminate]. Qed.

(** C5, amended: when [title], [found_by], [severity] or [priority] is
    missing, [create_defect] raises before any write, so that the store
    is the one it was given and no row is added to [defects] or to
    [defect_history]; the exception is the [AttributeError] of
    [.value] when the severity or the priority is missing, and
    otherwise the [IntegrityError] of the [NOT NULL] constraint on the
    title or the reporter; it is never a validation error. *)
Theorem create_defect_missing_field_raises s now_found now_log title
    description severity priority found_by module kwargs :
  title = None ∨ found_by = None ∨ severity = None ∨ priority = None →
  let e :=
    match severity, priority with
    | Some _, Some _ => IntegrityError
    | _, _ => AttributeError
    end in
  create_defect s now_found now_log title description severity priority
    found_by module kwargs = (s, Raise e) ∧
  kind_of e ≠ Some ValidationError.
Proof.
  intros H. unfold create_defect.
  destruct severity; [|by split].
  destruct priority; [|by split].
  destruct title; [|by split].
  destruct found_by; [|by split].
  destruct H as [H|[H|[H|H]]]; discriminate H.
Qed.

Lemma create_defect_missing_field_raises_witness :
  (@None string = None ∨ Some "ann" = None ∨
   Some DefectSeverity.MAJOR = None ∨ Some DefectPriority.HIGH = None) ∧
  let e :=
    match Some DefectSeverity.MAJOR, Some DefectPriority.HIGH with
    | Some _, Some _ => IntegrityError
    | _, _ => AttributeError
    end in
  create_defect refix_fixed 30 31 None (Some "no title")
    (Some DefectSeverity.MAJOR) (Some DefectPriority.HIGH) (Some "ann")
    None Kwargs.empty = (refix_fixed, Raise e) ∧
  kind_of e ≠ Some ValidationError.
Proof.
  split; [left; reflexivity|].
  apply (create_defect_missing_field_raises refix_fixed 30 31 None
           (Some "no title") (Some DefectSeverity.MAJOR)
           (Some DefectPriority.HIGH) (Some "ann") None Kwargs.empty).
  left; reflexivity.
Defined.

Lemma foreign_keys_hold_empty : foreign_keys_hold empty_db.
Proof. intros h Hh. by apply elem_of_nil in Hh. Qed.

Lemma defect_id_below_next s d :
  d ∈ defects s →
  Defect.id d < next_rowid (defects_seq s) (Defect.id <$> defects s).
Proof.
  intros Hd. apply next_rowid_fresh. apply list_elem_of_fmap. eauto.
Qed.

Lemma history_of_fresh s :
  foreign_keys_hold s →
  history_of s (next_rowid (defects_seq s) (Defect.id <$> defects s)) = [].
Proof.
  intros Hfk. apply filter_none. intros h Hh.
  destruct (Hfk h Hh) as (d & Hd & Hid). rewrite <- Hid.
  pose proof (defect_id_below_next s d Hd). lia.
Qed.

Lemma select_by_id_fresh s :
  filter (λ d, Defect.id d
               = next_rowid (defects_seq s) (Defect.id <$> defects s))
         (defects s) = [].
Proof.
  apply filter_none. intros d Hd.
  pose proof (defect_id_below_next s d Hd). lia.
Qed.

(** What [create_defect] does on complete arguments: one row is added
    to each table, the new defect is found under the returned id, and
    the log of that id is its former log followed by the creation
    entry. *)
Lemma create_defect_complete s now_found now_log title description severity
    priority found_by module kwargs :
  let defect_id := next_rowid (defects_seq s) (Defect.id <$> defects s) in
  let '(s', r) :=
    create_defect s now_found now_log (Some title) description
      (Some severity) (Some priority) (Some found_by) module kwargs in
  r = Return defect_id ∧
  ∃ d h,
    defects s' = defects s ++ [d] ∧
    select_by_id s' defect_id = Some d ∧
    Defect.id d = defect_id ∧
    Defect.status d = "New" ∧
    Defect.found_date d = now_found ∧
    Defect.module d = module ∧
    defect_history s' = defect_history s ++ [h] ∧
    history_of s' defect_id = history_of s defect_id ++ [h] ∧
    History.defect_id h = defect_id ∧
    History.changed_by h = found_by ∧
    History.change_date h = now_log ∧
    History.field_changed h = None ∧
    History.old_value h = None ∧
    History.new_value h = Some "New" ∧
    History.comment h = Some "Defect created".
Proof.
  simpl. split; [done|]. do 2 eexists.
  split; [done|]. split.
  { rewrite select_by_id_log_change. unfold select_by_id. simpl.
    rewrite filter_app, select_by_id_fresh. simpl.
    rewrite filter_cons_True by done. done. }
  do 4 (split; [done|]). split; [done|]. split; [|done].
  rewrite history_of_log_change. by rewrite decide_True.
Qed.

(** On a store that respects the declared foreign key, the log of a
    new defect consists of the creation entry alone. *)
Lemma create_defect_creation_invariant s now_found now_log title description
    severity priority found_by module kwargs :
  foreign_keys_hold s →
  ∃ s' defect_id d h,
    create_defect s now_found now_log (Some title) description
      (Some severity) (Some priority) (Some found_by) module kwargs
    = (s', Return defect_id) ∧
    select_by_id s' defect_id = Some d ∧
    Defect.status d = DefectStatus.value DefectStatus.NEW ∧
    Defect.found_date d = now_found ∧
    history_of s' defect_id = [h] ∧
    History.changed_by h = found_by ∧
    History.field_changed h = None ∧
    History.new_value h = Some (DefectStatus.value DefectStatus.NEW) ∧
    History.comment h = Some "Defect created".
Proof.
  intros Hfk.
  pose proof (create_defect_complete s now_found now_log title description
                severity priority found_by module kwargs) as Hc.
  cbv zeta in Hc.
  destruct (create_defect s now_found now_log (Some title) description
              (Some severity) (Some priority) (Some found_by) module kwargs)
    as [s' r].
  destruct Hc as (-> & d & h & _ & Hsel & _ & Hst & Hfd & _ & _ & Hlog & _
                  & Hby & _ & Hfc & _ & Hnv & Hcm).
  rewrite history_of_fresh in Hlog by done.
  exists s', (next_rowid (defects_seq s) (Defect.id <$> defects s)), d, h.
  done.
Qed.

(** C8: [orphan_logged] is a store the methods build, no defect of it
    carries id 1, and its log holds the row [add_resolution] wrote for
    that id.  [create_defect] on complete arguments then returns id 1
    for a defect with status New and the clock reading as
    [found_date], but the log of the new id holds two entries: the
    stale resolution row and the creation marker. *)
Theorem create_defect_inherits_orphan_log :
  reachable orphan_logged ∧
  select_by_id orphan_logged 1 = None ∧
  History.comment <$> history_of orphan_logged 1 = [Some "Root cause: None"] ∧
  let '(s', r) :=
    create_defect orphan_logged 7 8 (Some "crash on save") None
      (Some DefectSeverity.CRITICAL) (Some DefectPriority.IMMEDIATE)
      (Some "ann") (Some "editor") Kwargs.empty in
  r = Return 1 ∧
  Defect.status <$> select_by_id s' 1 = Some "New" ∧
  Defect.found_date <$> select_by_id s' 1 = Some 7 ∧
  length (history_of s' 1) = 2%nat ∧
  History.comment <$> history_of s' 1
  = [Some "Root cause: None"; Some "Defect created"].
Proof.
  split.
  - unfold reachable, orphan_logged. apply rtc_once.
    apply (step_call empty_db (AddResolution 5 1 "patched" None (Some "qa"))).
  - by vm_compute.
Qed.

(** ** [assign_defect] *)

(** C6: for an existing defect, [assign_defect] succeeds; the row gets
    the assignee, its status becomes Assigned exactly when it was New,
    and putting the former assignee and status back gives the former
    row, so no other column moved; rows under other ids are as before;
    one log entry is appended, also when two columns change. *)
Theorem assign_defect_effect s now_log defect_id assignee assigned_by comment
    d :
  select_by_id s defect_id = Some d →
  let '(s', r) :=
    assign_defect s now_log defect_id assignee assigned_by comment in
  r = true ∧
  (∃ d',
     select_by_id s' defect_id = Some d' ∧
     Defect.assigned_to d' = Some assignee ∧
     Defect.status d'
     = (if decide (Defect.status d = "New")
        then "Assigned" else Defect.status d) ∧
     Defect.set_status (Defect.status d)
       (Defect.set_assigned_to (Defect.assigned_to d) d') = d) ∧
  (∀ key, key ≠ defect_id → select_by_id s' key = select_by_id s key) ∧
  length (defects s') = length (defects s) ∧
  ∃ h,
    defect_history s' = defect_history s ++ [h] ∧
    History.defect_id h = defect_id ∧
    History.changed_by h = assigned_by ∧
    History.change_date h = now_log ∧
    History.field_changed h = Some "assigned_to" ∧
    History.old_value h = Defect.assigned_to d ∧
    History.new_value h = Some assignee ∧
    History.comment h = comment.
Proof.
  intros Hd. unfold assign_defect. rewrite Hd.
  split; [done|]. split; [|split; [|split]].
  - rewrite select_by_id_log_change. unfold select_by_id in *. simpl.
    rewrite head_filter_update, Hd
      by keeps_id.
    rewrite decide_True by done. simpl. eexists. split; [done|].
    destruct (decide (Defect.status d = "New")); by destruct d.
  - intros key Hkey. rewrite select_by_id_log_change.
    unfold select_by_id. simpl.
    rewrite head_filter_update by keeps_id.
    rewrite decide_False by done. apply option_fmap_id.
  - simpl. apply update_where_id_length.
  - eexists. split; [done|]. done.
Qed.

Lemma assign_defect_effect_witness :
  ∃ d,
    select_by_id refix_created 1 = Some d ∧
    let '(s', r) := assign_defect refix_created 3 1 "bob" "ann" None in
    r = true ∧
    (∃ d',
       select_by_id s' 1 = Some d' ∧
       Defect.assigned_to d' = Some "bob" ∧
       Defect.status d'
       = (if decide (Defect.status d = "New")
          then "Assigned" else Defect.status d) ∧
       Defect.set_status (Defect.status d)
         (Defect.set_assigned_to (Defect.assigned_to d) d') = d) ∧
    (∀ key, key ≠ 1 → select_by_id s' key = select_by_id refix_created key) ∧
    length (defects s') = length (defects refix_created) ∧
    ∃ h,
      defect_history s' = defect_history refix_created ++ [h] ∧
      History.defect_id h = 1 ∧
      History.changed_by h = "ann" ∧
      History.change_date h = 3 ∧
      History.field_changed h = Some "assigned_to" ∧
      History.old_value h = Defect.assigned_to d ∧
      History.new_value h = Some "bob" ∧
      History.comment h = None.
Proof.
  eexists. split; [reflexivity|].
  apply (assign_defect_effect refix_created 3 1 "bob" "ann" None).
  reflexivity.
Defined.

(** ** [add_resolution] *)

(** C10: for an existing defect, [add_resolution] stores the given
    resolution and the given root cause, so an omitted root cause
    stores null whatever was there; putting the former two values back
    gives the former row, so no other column moved; rows under other
    ids are as before. *)
Theorem add_resolution_overwrites s now_log defect_id resolution root_cause
    resolved_by d :
  select_by_id s defect_id = Some d →
  let '(s', r) :=
    add_resolution s now_log defect_id resolution root_cause resolved_by in
  r = true ∧
  (∃ d',
     select_by_id s' defect_id = Some d' ∧
     Defect.resolution d' = Some resolution ∧
     Defect.root_cause d' = root_cause ∧
     Defect.set_root_cause (Defect.root_cause d)
       (Defect.set_resolution (Defect.resolution d) d') = d) ∧
  (∀ key, key ≠ defect_id → select_by_id s' key = select_by_id s key) ∧
  length (defects s') = length (defects s).
Proof.
  intros Hd.
  assert (∀ s0 : db,
            defects s0
            = update_where_id defect_id
                (λ d0, Defect.set_root_cause root_cause
                         (Defect.set_resolution (Some resolution) d0))
                (defects s) →
            (∃ d',
               select_by_id s0 defect_id = Some d' ∧
               Defect.resolution d' = Some resolution ∧
               Defect.root_cause d' = root_cause ∧
               Defect.set_root_cause (Defect.root_cause d)
                 (Defect.set_resolution (Defect.resolution d) d') = d) ∧
            (∀ key, key ≠ defect_id → select_by_id s0 key = select_by_id s key) ∧
            length (defects s0) = length (defects s)) as Hframe.
  { intros s0 Hs0. unfold select_by_id in *. rewrite Hs0.
    split; [|split].
    - rewrite head_filter_update, Hd by keeps_id.
      rewrite decide_True by done. simpl. eexists. split; [done|].
      by destruct d.
    - intros key Hkey. rewrite head_filter_update by keeps_id.
      rewrite decide_False by done. apply option_fmap_id.
    - apply update_where_id_length. }
  unfold add_resolution.
  destruct resolved_by as [who|]; [destruct (truthy (Some who))|];
    (split; [done|]); by apply Hframe.
Qed.

Lemma add_resolution_overwrites_witness :
  ∃ d,
    select_by_id
      (add_resolution refix_fixed 14 1 "patched" (Some "race") (Some "bob")).1
      1 = Some d ∧
    Defect.root_cause d = Some "race" ∧
    let '(s', r) :=
      add_resolution
        (add_resolution refix_fixed 14 1 "patched" (Some "race")
           (Some "bob")).1
        15 1 "patched twice" None None in
    r = true ∧
    (∃ d',
       select_by_id s' 1 = Some d' ∧
       Defect.resolution d' = Some "patched twice" ∧
       Defect.root_cause d' = None ∧
       Defect.set_root_cause (Defect.root_cause d)
         (Defect.set_resolution (Defect.resolution d) d') = d) ∧
    (∀ key, key ≠ 1 →
            select_by_id s' key
            = select_by_id
                (add_resolution refix_fixed 14 1 "patched" (Some "race")
                   (Some "bob")).1 key) ∧
    length (defects s')
    = length
        (defects
           (add_resolution refix_fixed 14 1 "patched" (Some "race")
              (Some "bob")).1).
Proof.
  eexists. split; [reflexivity|]. split; [reflexivity|].
  apply (add_resolution_overwrites
           (add_resolution refix_fixed 14 1 "patched" (Some "race")
              (Some "bob")).1
           15 1 "patched twice" None None).
  reflexivity.
Defined.

(** ** [search_defects] *)

Section where_clause.
Context `{EqDecision A}.

Lemma sql_eq_true (col : option A) (v : A) :
  sql_eq col v = Some true ↔ col = Some v.
Proof.
  unfold sql_eq. destruct col as [w|]; simpl; [|done].
  case_bool_decide; split; intros; simplify_eq; done.
Qed.
End where_clause.

Lemma sql_and_true a b :
  sql_and a b = Some true ↔ a = Some true ∧ b = Some true.
Proof. destruct a as [[]|], b as [[]|]; simpl; intuition congruence. Qed.

Lemma eval_where_snoc query c d :
  eval_where (query ++ [c]) d = Some true
  ↔ eval_where query d = Some true ∧ eval_clause d c = Some true.
Proof. unfold eval_where. rewrite foldl_app. simpl. apply sql_and_true. Qed.

(** The clause is true exactly when each of its fragments is. *)
Lemma eval_where_true query d :
  eval_where query d = Some true
  ↔ Forall (λ c, eval_clause d c = Some true) query.
Proof.
  induction query as [|c query IH] using rev_ind.
  - split; [constructor|done].
  - rewrite eval_where_snoc, IH, Forall_app, Forall_singleton. done.
Qed.

Lemma execute_select_all rows : execute_select [] rows = rows.
Proof.
  unfold execute_select. induction rows as [|d rows IH]; [done|].
  rewrite filter_cons_True by done. by rewrite IH.
Qed.

(** C7: [search_defects] returns, in table order, exactly the defects
    that match every given criterion by equality; with no criterion it
    returns the whole table. *)
Theorem search_defects_correct :
  (∀ s criteria,
     search_defects s criteria = filter (matches criteria) (defects s)) ∧
  (∀ s, search_defects s Criteria.empty = defects s).
Proof.
  split.
  - intros s criteria. unfold search_defects, execute_select.
    apply list_filter_iff. intros d. unfold matches.
    rewrite eval_where_true.
    destruct criteria as [[st|] [sv|] [pr|] [asg|] [md|]]; simpl;
      rewrite ?Forall_cons, Forall_nil; unfold eval_clause;
      rewrite ?sql_eq_true; tauto.
  - intros s. apply execute_select_all.
Qed.

(** ** [get_metrics] *)

Lemma total_insert_succ (m : gmap string nat) k :
  total (<[k := S (default 0%nat (m !! k))]> m) = S (total m).
Proof.
  unfold total.
  destruct (m !! k) as [n|] eqn:Hk; simpl.
  - rewrite <- insert_delete_eq.
    rewrite map_fold_insert_L; [|intros; lia|apply lookup_delete_eq].
    rewrite (map_fold_delete_L _ _ k n m); [|intros; lia|done].
    done.
  - rewrite map_fold_insert_L; [done|intros; lia|done].
Qed.

Lemma total_group_count ks : total (group_count ks) = length ks.
Proof.
  induction ks as [|k ks IH]; [done|].
  simpl. by rewrite total_insert_succ, IH.
Qed.

Lemma group_count_lookup ks k :
  group_count ks !! k
  = (let n := length (filter (λ x, x = k) ks) in
     if decide (n = 0%nat) then None else Some n).
Proof.
  induction ks as [|x ks IH]; [done|].
  simpl in *. rewrite filter_cons.
  destruct (decide (x = k)) as [->|Hne].
  - rewrite lookup_insert_eq, IH. simpl.
    by destruct (decide (length (filter (λ x, x = k) ks) = 0%nat)) as [->|].
  - by rewrite lookup_insert_ne.
Qed.

(** The keys [GROUP BY module] sees, against the rows of the table. *)
Lemma module_keys_length rows :
  length (omap Defect.module rows)
  = length (filter (λ d, is_Some (Defect.module d)) rows).
Proof.
  induction rows as [|d rows IH]; [done|].
  rewrite filter_cons. simpl.
  destruct (Defect.module d) as [m|] eqn:Hm; simpl.
  - f_equal. exact IH.
  - exact IH.
Qed.

Lemma module_keys_count rows m :
  length (filter (λ x, x = m) (omap Defect.module rows))
  = length (filter (λ d, Defect.module d = Some m) rows).
Proof.
  induction rows as [|d rows IH]; [done|].
  rewrite (filter_cons (λ d, Defect.module d = Some m)).
  change (omap Defect.module (d :: rows))
    with (match Defect.module d with
          | Some k => k :: omap Defect.module rows
          | None => omap Defect.module rows
          end).
  destruct (Defect.module d) as [m'|] eqn:Hm.
  - rewrite filter_cons.
    destruct (decide (m' = m)) as [->|Hne].
    + rewrite decide_True by done. simpl. by rewrite IH.
    + rewrite decide_False by congruence. done.
  - rewrite decide_False by done. done.
Qed.

(** C9: a bucket of [by_module] counts the defects carrying that
    module, and no bucket exists for zero defects; the counts add up to
    the number of defects whose module is not null, whereas those of
    [by_status] add up to the number of defects; creating a defect
    without a module leaves [by_module] as it was, so that its counts
    then add up to less than the number of defects. *)
Theorem by_module_skips_null_module :
  (∀ s m,
     by_module s !! m
     = (let n :=
          length (filter (λ d, Defect.module d = Some m) (defects s)) in
        if decide (n = 0%nat) then None else Some n)) ∧
  (∀ s,
     total (by_module s)
     = length (filter (λ d, is_Some (Defect.module d)) (defects s))) ∧
  (∀ s, total (by_status s) = length (defects s)) ∧
  (∀ s now_found now_log title description severity priority found_by kwargs,
     let s' :=
       (create_defect s now_found now_log (Some title) description
          (Some severity) (Some priority) (Some found_by) None kwargs).1 in
     by_module s' = by_module s ∧
     (total (by_module s') < length (defects s'))%nat).
Proof.
  split_and!.
  - intros s m. unfold by_module.
    rewrite group_count_lookup. simpl. by rewrite module_keys_count.
  - intros s. unfold by_module.
    by rewrite total_group_count, module_keys_length.
  - intros s. unfold by_status. by rewrite total_group_count, length_fmap.
  - intros s now_found now_log title description severity priority found_by
      kwargs. simpl. unfold by_module. simpl.
    rewrite omap_app. simpl. rewrite app_nil_r. split; [done|].
    rewrite total_group_count, module_keys_length, length_app. simpl.
    pose proof (length_filter (λ d, is_Some (Defect.module d)) (defects s)).
    lia.
Qed.

(** ** Average resolution time *)

(** [AVG] ranges over exactly the defects that are Closed and have a
    closing date. *)
Lemma resolution_days_closed s :
  resolution_days s
  = (λ d, julianday_diff (default 0 (Defect.closed_date d))
                         (Defect.found_date d))
      <$> filter (λ d, Defect.status d = "Closed"
                       ∧ is_Some (Defect.closed_date d))
                 (defects s).
Proof.
  unfold resolution_days.
  induction (defects s) as [|d rows IH]; [done|].
  rewrite filter_cons.
  change (omap ?f (d :: rows))
    with (match f d with
          | Some x => x :: omap f rows
          | None => omap f rows
          end).
  cbv beta.
  destruct (decide (Defect.status d = "Closed")) as [Hst|Hst].
  - destruct (Defect.closed_date d) as [c|] eqn:Hc; simpl.
    + rewrite decide_True by eauto. rewrite fmap_cons, Hc. simpl.
      by rewrite IH.
    + rewrite decide_False by (intros [_ [? ?]]; done). done.
  - rewrite decide_False by (intros [? _]; done). done.
Qed.

(** With no such defect the average is undefined. *)
Lemma avg_resolution_days_none s :
  resolution_days s = [] → avg_resolution_days s = None.
Proof. intros H. unfold avg_resolution_days. by rewrite H. Qed.

(** With such defects and a mean other than zero, the result is the
    mean rounded to one decimal place. *)
Lemma avg_resolution_days_some s x xs :
  resolution_days s = x :: xs →
  let mean :=
    (foldr Qplus 0 (x :: xs) / inject_Z (Z.of_nat (length (x :: xs))))%Q in
  ¬ (mean == 0)%Q →
  avg_resolution_days s = Some (py_round1 mean).
Proof.
  intros H mean Hmean. unfold avg_resolution_days. rewrite H.
  cbv beta iota zeta delta [sql_avg]. fold mean.
  destruct (Qeq_bool mean 0) eqn:Hz; [|done].
  apply Qeq_bool_iff in Hz. done.
Qed.

Lemma avg_resolution_days_five :
  avg_resolution_days closed_after_five_days = Some (Qmake 5 1) ∧
  avg_resolution_days found_at_zero = None.
Proof. by vm_compute. Qed.

(** C3: a store whose one defect is Closed with a closing date equal to
    its [found_date] has a mean of zero days over one defect, and
    [avg_resolution_days] is undefined for it instead of zero. *)
Theorem avg_resolution_days_zero_mean :
  (Defect.status <$> select_by_id closed_at_once 1) = Some "Closed" ∧
  (Defect.closed_date <$> select_by_id closed_at_once 1) = Some (Some 0) ∧
  (Defect.found_date <$> select_by_id closed_at_once 1) = Some 0 ∧
  resolution_days closed_at_once = [Qmake 0 86400000] ∧
  avg_resolution_days closed_at_once = None.
Proof. by vm_compute. Qed.

(** ** The log of a defect under a sequence of calls *)

Lemma is_Some_select_update s set target key hist seq1 seq2 :
  keeps_id set →
  is_Some (select_by_id s key) →
  is_Some (select_by_id
             (mkDb (update_where_id target set (defects s)) hist seq1 seq2)
             key).
Proof.
  intros Hset Hs. unfold select_by_id in *. simpl.
  rewrite head_filter_update by done. by apply fmap_is_Some.
Qed.

(** [add_resolution] with the test on [resolved_by] pulled out. *)
Lemma add_resolution_unfold s now_log defect_id resolution root_cause
    resolved_by :
  add_resolution s now_log defect_id resolution root_cause resolved_by
  = let s1 :=
      mkDb (update_where_id defect_id
              (λ d, Defect.set_root_cause root_cause
                      (Defect.set_resolution (Some resolution) d))
              (defects s))
           (defect_history s) (defects_seq s) (history_seq s) in
    (if truthy resolved_by
     then _log_change s1 now_log defect_id (default "" resolved_by)
            (Some "resolution") None (Some resolution)
            (Some ("Root cause: " +:+ py_str root_cause))
     else s1,
     true).
Proof.
  unfold add_resolution. destruct resolved_by as [who|]; [|done].
  by destruct (truthy (Some who)).
Qed.

(** One call, seen from a defect that exists: the defect still exists,
    a call against it succeeds, and its log grows by the entry of the
    call, if the call is one that writes. *)
Lemma run_call_log s c key :
  is_Some (select_by_id s key) →
  is_Some (select_by_id (run_call s c).1 key) ∧
  (call_target c = key → (run_call s c).2 = true) ∧
  History.change_date <$> history_of (run_call s c).1 key
  = (History.change_date <$> history_of s key) ++
      (if decide (appends_to key c) then [call_log_time c] else []).
Proof.
  intros Hkey. unfold appends_to.
  destruct c as [now_date now_log defect_id new_status who comment
                |now_log defect_id assignee who comment
                |now_log defect_id resolution root_cause resolved_by];
    simpl.
  - unfold update_status.
    destruct (select_by_id s defect_id) as [row|] eqn:Hrow; simpl.
    + split; [|split; [done|]].
      * rewrite select_by_id_log_change.
        apply is_Some_select_update; [destruct new_status; keeps_id|done].
      * rewrite history_of_log_change, fmap_app. f_equal.
        destruct (decide (defect_id = key)); case_appends;
          first [done | exfalso; tauto].
    + assert (defect_id ≠ key) as Hne.
      { intros ->. rewrite Hrow in Hkey. by destruct Hkey. }
      split; [done|]. split; [done|].
      case_appends; [done|]. by rewrite app_nil_r.
  - unfold assign_defect.
    destruct (select_by_id s defect_id) as [row|] eqn:Hrow; simpl.
    + split; [|split; [done|]].
      * rewrite select_by_id_log_change.
        apply is_Some_select_update; [keeps_id|done].
      * rewrite history_of_log_change, fmap_app. f_equal.
        destruct (decide (defect_id = key)); case_appends;
          first [done | exfalso; tauto].
    + assert (defect_id ≠ key) as Hne.
      { intros ->. rewrite Hrow in Hkey. by destruct Hkey. }
      split; [done|]. split; [done|].
      case_appends; [done|]. by rewrite app_nil_r.
  - rewrite add_resolution_unfold. simpl.
    case_appends.
    + subst. rewrite H0. simpl. split; [|split; [done|]].
      * rewrite select_by_id_log_change.
        apply is_Some_select_update; [keeps_id|done].
      * rewrite history_of_log_change, fmap_app. by rewrite decide_True.
    + rewrite app_nil_r.
      destruct (truthy resolved_by) eqn:Hwho; simpl.
      * split; [|split; [done|]].
        -- rewrite select_by_id_log_change.
           apply is_Some_select_update; [keeps_id|done].
        -- rewrite history_of_log_change, fmap_app.
           rewrite decide_False by tauto. by rewrite app_nil_r.
      * split; [by apply is_Some_select_update; [keeps_id|]|]. done.
Qed.

(** The same over a sequence of calls. *)
Lemma run_log calls : ∀ s key,
  is_Some (select_by_id s key) →
  (∀ i c, calls !! i = Some c → call_target c = key →
          (run s calls).2 !! i = Some true) ∧
  History.change_date <$> history_of (run s calls).1 key
  = (History.change_date <$> history_of s key) ++
      (call_log_time <$> filter (appends_to key) calls).
Proof.
  induction calls as [|c calls IH]; intros s key Hkey.
  - simpl. split; [intros i c Hi; by destruct i|]. by rewrite app_nil_r.
  - destruct (run_call_log s c key Hkey) as (Hkey' & Hres & Hlog).
    simpl. destruct (run_call s c) as [s1 r] eqn:Hc. simpl in *.
    destruct (IH s1 key Hkey') as (Hres' & Hlog').
    destruct (run s1 calls) as [s2 rs] eqn:Hrun. simpl in *.
    split.
    + intros [|i] c' Hi Htarget; simpl in *.
      * inversion Hi; subst. by rewrite Hres.
      * by apply (Hres' i c').
    + rewrite Hlog', Hlog, filter_cons.
      destruct (decide (appends_to key c)); simpl.
      * by rewrite <- app_assoc.
      * by rewrite app_nil_r.
Qed.

(** A subsequence of a non-decreasing sequence of instants is
    non-decreasing. *)
Lemma Sorted_le_sublist (l1 l2 : list Z) :
  l1 `sublist_of` l2 → Sorted Z.le l2 → Sorted Z.le l1.
Proof.
  intros Hsub Hs. apply (Sorted_StronglySorted _) in Hs.
  apply StronglySorted_Sorted.
  induction Hsub as [|x l1 l2 Hsub IH|x l1 l2 Hsub IH].
  - constructor.
  - apply StronglySorted_inv in Hs as [Hs Hx]. constructor; [by apply IH|].
    rewrite Forall_forall in Hx. apply Forall_forall. intros y Hy.
    apply Hx. by apply (elem_of_sublist l1 l2).
  - apply StronglySorted_inv in Hs as [Hs _]. by apply IH.
Qed.

(** C4, as stated, fails: after the creation and one successful
    mutating call the log of the defect holds one entry, not two. *)
Lemma add_resolution_without_actor_not_logged :
  (run refix_created silent_calls).2 = [true] ∧
  (Defect.resolution <$> select_by_id (run refix_created silent_calls).1 1)
  = Some (Some "patched") ∧
  length (history_of (run refix_created silent_calls).1 1) = 1%nat ∧
  length (history_of (run refix_created silent_calls).1 1)
  ≠ S (length silent_calls).
Proof. vm_compute. split_and!; [done|done|done|discriminate]. Qed.

(** C4, amended: after its creation in a store that respects the
    foreign key, and after any sequence of calls of [update_status],
    [assign_defect] and [add_resolution], every call against the defect
    succeeds and the log of the defect holds one creation entry plus
    one entry per call against it other than [add_resolution] without
    a true [resolved_by]; when the clock readings taken for the log are
    non-decreasing in call order, so are the [change_date] values in
    log order. *)
Theorem history_after_calls s now_found now_log title description severity
    priority found_by module kwargs calls :
  foreign_keys_hold s →
  ∃ s1 defect_id,
    create_defect s now_found now_log (Some title) description
      (Some severity) (Some priority) (Some found_by) module kwargs
    = (s1, Return defect_id) ∧
    (∀ i c, calls !! i = Some c → call_target c = defect_id →
            (run s1 calls).2 !! i = Some true) ∧
    length (history_of (run s1 calls).1 defect_id)
    = S (length (filter (appends_to defect_id) calls)) ∧
    (Sorted Z.le (now_log :: (call_log_time <$> calls)) →
     Sorted Z.le
       (History.change_date <$> history_of (run s1 calls).1 defect_id)).
Proof.
  intros Hfk.
  pose proof (create_defect_complete s now_found now_log title description
                severity priority found_by module kwargs) as Hc.
  cbv zeta in Hc.
  destruct (create_defect s now_found now_log (Some title) description
              (Some severity) (Some priority) (Some found_by) module kwargs)
    as [s1 r].
  destruct Hc as (-> & d & h & _ & Hsel & _ & _ & _ & _ & _ & Hlog & _ & _
                  & Hdate & _).
  rewrite history_of_fresh in Hlog by done. simpl in Hlog.
  set (defect_id := next_rowid (defects_seq s) (Defect.id <$> defects s))
    in *.
  exists s1, defect_id. split; [done|].
  destruct (run_log calls s1 defect_id) as [Hres Hdates]; [by rewrite Hsel|].
  rewrite Hlog in Hdates. simpl in Hdates. rewrite Hdate in Hdates.
  split; [exact Hres|]. split.
  - rewrite <- (length_fmap History.change_date), Hdates. simpl.
    by rewrite length_fmap.
  - intros Hsorted. rewrite Hdates.
    apply (Sorted_le_sublist _ (now_log :: (call_log_time <$> calls)));
      [|done].
    apply sublist_skip. apply fmap_sublist. apply sublist_filter.
Qed.

Lemma history_after_calls_witness :
  foreign_keys_hold empty_db ∧
  Sorted Z.le
    (1 :: (call_log_time
             <$> [UpdateStatus 10 11 1 DefectStatus.FIXED "bob" None;
                  AddResolution 12 1 "patched" None None;
                  AssignDefect 13 1 "bob" "ann" None])) ∧
  ∃ s1 defect_id,
    create_defect empty_db 0 1 (Some "crash on save") (Some "steps")
      (Some DefectSeverity.MAJOR) (Some DefectPriority.HIGH) (Some "ann")
      None Kwargs.empty
    = (s1, Return defect_id) ∧
    (∀ i c,
       [UpdateStatus 10 11 1 DefectStatus.FIXED "bob" None;
        AddResolution 12 1 "patched" None None;
        AssignDefect 13 1 "bob" "ann" None] !! i = Some c →
       call_target c = defect_id →
       (run s1
          [UpdateStatus 10 11 1 DefectStatus.FIXED "bob" None;
           AddResolution 12 1 "patched" None None;
           AssignDefect 13 1 "bob" "ann" None]).2 !! i = Some true) ∧
    length
      (history_of
         (run s1
            [UpdateStatus 10 11 1 DefectStatus.FIXED "bob" None;
             AddResolution 12 1 "patched" None None;
             AssignDefect 13 1 "bob" "ann" None]).1 defect_id)
    = S (length
           (filter (appends_to defect_id)
              [UpdateStatus 10 11 1 DefectStatus.FIXED "bob" None;
               AddResolution 12 1 "patched" None None;
               AssignDefect 13 1 "bob" "ann" None])) ∧
    (Sorted Z.le
       (1 :: (call_log_time
                <$> [UpdateStatus 10 11 1 DefectStatus.FIXED "bob" None;
                     AddResolution 12 1 "patched" None None;
                     AssignDefect 13 1 "bob" "ann" None])) →
     Sorted Z.le
       (History.change_date
          <$> history_of
                (run s1
                   [UpdateStatus 10 11 1 DefectStatus.FIXED "bob" None;
                    AddResolution 12 1 "patched" None None;
                    AssignDefect 13 1 "bob" "ann" None]).1 defect_id)).
Proof.
  assert (foreign_keys_hold empty_db) as Hfk.
  { intros h Hh. simpl in Hh. inversion Hh. }
  split; [exact Hfk|]. split.
  { simpl. repeat constructor; lia. }
  apply (history_after_calls empty_db 0 1 "crash on save" (Some "steps")
           DefectSeverity.MAJOR DefectPriority.HIGH "ann" None Kwargs.empty).
  exact Hfk.
Defined.

(** * Further properties of the methods *)

(** ** Keys and column updates *)

Ltac keeps_frozen :=
  intros [];
  repeat match goal with |- context [decide ?P] => destruct (decide P) end;
  reflexivity.

Lemma update_where_id_ids target set rows :
  keeps_id set →
  Defect.id <$> update_where_id target set rows = Defect.id <$> rows.
Proof.
  intros Hset. unfold update_where_id. rewrite <- list_fmap_compose.
  apply list_fmap_ext. intros i d _. simpl.
  destruct (decide (Defect.id d = target)); [apply Hset|done].
Qed.

Lemma update_where_id_same target rows :
  update_where_id target (λ d, d) rows = rows.
Proof.
  unfold update_where_id. rewrite <- (list_fmap_id rows) at 2.
  apply list_fmap_ext. intros i d _. by destruct (decide _).
Qed.

Lemma select_by_id_Some s key d :
  select_by_id s key = Some d → d ∈ defects s ∧ Defect.id d = key.
Proof.
  unfold select_by_id. intros Hhead.
  assert (d ∈ filter (λ d, Defect.id d = key) (defects s)) as Hin.
  { destruct (filter _ (defects s)) as [|x l]; simplify_eq/=. by left. }
  by apply list_elem_of_filter in Hin as [? ?].
Qed.

Lemma select_by_id_None s key :
  select_by_id s key = None ↔ key ∉ Defect.id <$> defects s.
Proof.
  unfold select_by_id. split.
  - intros Hhead Hin. apply list_elem_of_fmap in Hin as (d & -> & Hd).
    assert (d ∈ filter (λ d', Defect.id d' = Defect.id d) (defects s)) as Hf
      by by apply list_elem_of_filter.
    destruct (filter _ (defects s)); [by apply elem_of_nil in Hf|done].
  - intros Hnot. rewrite filter_none; [done|].
    intros d Hd Hid. apply Hnot. apply list_elem_of_fmap. eauto.
Qed.

Lemma call_update_keeps_id row c : keeps_id (call_update row c).
Proof.
  destruct c as [? ? ? new_status ? ?| |], row; simpl;
    try destruct new_status; keeps_id.
Qed.

Lemma call_update_frozen row c d : frozen (call_update row c d) = frozen d.
Proof.
  destruct c as [? ? ? new_status ? ?| |], row; simpl;
    try destruct new_status; revert d; keeps_frozen.
Qed.

(** The table after a call: the rows under the id of the call are
    updated by [call_update], nothing else happens to the table. *)
Lemma run_call_defects s c :
  defects (run_call s c).1
  = update_where_id (call_target c)
      (call_update (select_by_id s (call_target c)) c) (defects s).
Proof.
  destruct c as [now_date now_log defect_id new_status who comment
                |now_log defect_id assignee who comment
                |now_log defect_id resolution root_cause resolved_by];
    simpl.
  - unfold update_status.
    destruct (select_by_id s defect_id) as [row|]; simpl.
    + by destruct new_status.
    + destruct new_status; by rewrite update_where_id_same.
  - unfold assign_defect.
    destruct (select_by_id s defect_id) as [row|]; simpl; [done|].
    by rewrite update_where_id_same.
  - rewrite add_resolution_unfold. simpl.
    by destruct (truthy resolved_by), (select_by_id s defect_id).
Qed.

(** What one method call does to the two key columns and to the log:
    the log is kept or gets one row under the next rowid; the keys of
    the defects are kept or followed by the next rowid. *)
Lemma step_shape s s' :
  step s s' →
  (defect_history s' = defect_history s ∨
   ∃ h, defect_history s' = defect_history s ++ [h] ∧
        History.id h
        = next_rowid (history_seq s) (History.id <$> defect_history s)) ∧
  (Defect.id <$> defects s' = Defect.id <$> defects s ∨
   Defect.id <$> defects s'
   = (Defect.id <$> defects s)
       ++ [next_rowid (defects_seq s) (Defect.id <$> defects s)]).
Proof.
  intros Hstep.
  destruct Hstep as [s now_found now_log title description severity priority
                       found_by module kwargs|s c].
  - unfold create_defect.
    destruct severity, priority, title, found_by; simpl; try by auto.
    split; [right; eexists; split; done|].
    right. by rewrite fmap_app.
  - split.
    + destruct c as [now_date now_log defect_id new_status who comment
                    |now_log defect_id assignee who comment
                    |now_log defect_id resolution root_cause resolved_by];
        simpl.
      * unfold update_status.
        destruct (select_by_id s defect_id); simpl; [|by left].
        right; eexists; split; done.
      * unfold assign_defect.
        destruct (select_by_id s defect_id); simpl; [|by left].
        right; eexists; split; done.
      * rewrite add_resolution_unfold. simpl.
        destruct (truthy resolved_by); simpl; [|by left].
        right; eexists; split; done.
    + left. rewrite run_call_defects.
      apply update_where_id_ids, call_update_keeps_id.
Qed.

(** ** [create_defect]: keys and lookups *)

Lemma next_rowid_pos seq (rowids : list Z) : 0 < next_rowid seq rowids.
Proof.
  unfold next_rowid.
  assert (0 ≤ foldr Z.max 0 rowids)
    by (induction rowids as [|r rowids IH]; simpl; lia).
  lia.
Qed.

(** X1: the id [create_defect] returns is positive, above every id of
    the table and above the sequence counter, which it becomes: no id
    is issued twice. *)
Theorem create_defect_fresh_id s now_found now_log title description severity
    priority found_by module kwargs :
  let '(s', r) :=
    create_defect s now_found now_log (Some title) description
      (Some severity) (Some priority) (Some found_by) module kwargs in
  ∃ defect_id,
    r = Return defect_id ∧
    0 < defect_id ∧
    defects_seq s < defect_id ∧
    (∀ d, d ∈ defects s → Defect.id d < defect_id) ∧
    defects_seq s' = defect_id.
Proof.
  simpl. eexists. split; [done|].
  split; [apply next_rowid_pos|].
  split; [unfold next_rowid; lia|].
  split; [apply defect_id_below_next|done].
Qed.

(** X2: after [create_defect] the returned id selects a row holding
    the arguments, with status New and every other column null, and
    every other id selects what it selected before. *)
Theorem create_defect_lookup s now_found now_log title description severity
    priority found_by module kwargs :
  let '(s', r) :=
    create_defect s now_found now_log (Some title) description
      (Some severity) (Some priority) (Some found_by) module kwargs in
  ∃ defect_id,
    r = Return defect_id ∧
    select_by_id s' defect_id
    = Some (Defect.mk defect_id title description
              (DefectSeverity.value severity) (DefectPriority.value priority)
              "New" module found_by None now_found None None None
              (Kwargs.environment kwargs) (Kwargs.steps_to_reproduce kwargs)
              (Kwargs.expected_result kwargs) (Kwargs.actual_result kwargs)
              None None
              (Kwargs.test_case_id kwargs) (Kwargs.build_version kwargs)
              None) ∧
    ∀ key, key ≠ defect_id → select_by_id s' key = select_by_id s key.
Proof.
  simpl. eexists. split; [done|]. split.
  - rewrite select_by_id_log_change. unfold select_by_id. simpl.
    rewrite filter_app, select_by_id_fresh. simpl.
    by rewrite filter_cons_True.
  - intros key Hkey. rewrite select_by_id_log_change.
    unfold select_by_id. simpl. rewrite filter_app.
    rewrite (filter_cons_False _ _ []) by (simpl; congruence).
    by rewrite filter_nil, app_nil_r.
Qed.

(** ** Invariants of the stores the methods build *)

Lemma step_ids_unique s s' :
  step s s' →
  NoDup (Defect.id <$> defects s) ∧ NoDup (History.id <$> defect_history s) →
  NoDup (Defect.id <$> defects s') ∧ NoDup (History.id <$> defect_history s').
Proof.
  intros Hstep [Hd Hh].
  destruct (step_shape s s' Hstep) as [Hhist Hids]. split.
  - destruct Hids as [->| ->]; [done|].
    apply NoDup_app. split; [done|]. split; [|apply NoDup_singleton].
    intros k Hk Hk'. apply list_elem_of_singleton in Hk'.
    pose proof (next_rowid_fresh (defects_seq s) _ k Hk). lia.
  - destruct Hhist as [->|(h & -> & Hid)]; [done|].
    rewrite fmap_app. apply NoDup_app. split; [done|].
    split; [|apply NoDup_singleton].
    intros k Hk Hk'. apply list_elem_of_singleton in Hk'.
    pose proof (next_rowid_fresh (history_seq s) _ k Hk). lia.
Qed.

(** X3: in every store the methods build, no two defects share an id
    and no two log rows share an id. *)
Theorem reachable_ids_unique s :
  reachable s →
  NoDup (Defect.id <$> defects s) ∧ NoDup (History.id <$> defect_history s).
Proof.
  unfold reachable. revert s. apply rtc_ind_r.
  - split; apply NoDup_nil_2.
  - intros s1 s2 Hreach Hstep IH. by apply (step_ids_unique s1 s2).
Qed.

Lemma reachable_refix_fixed : reachable refix_fixed.
Proof.
  unfold reachable, refix_fixed.
  eapply rtc_r;
    [|apply (step_call refix_created
               (UpdateStatus 10 11 1 DefectStatus.FIXED "bob" None))].
  unfold refix_created. apply rtc_once.
  apply (step_create empty_db 0 1 (Some "crash on save") (Some "steps")
           (Some DefectSeverity.MAJOR) (Some DefectPriority.HIGH)
           (Some "ann") None Kwargs.empty).
Defined.

Lemma reachable_ids_unique_witness :
  reachable refix_fixed ∧
  NoDup (Defect.id <$> defects refix_fixed) ∧
  NoDup (History.id <$> defect_history refix_fixed).
Proof.
  split; [exact reachable_refix_fixed|].
  apply (reachable_ids_unique refix_fixed). exact reachable_refix_fixed.
Defined.

Lemma valid_row_update row c d : valid_row d → valid_row (call_update row c d).
Proof.
  intros (Hst & Hsv & Hp). unfold valid_row.
  destruct c as [? ? ? new_status ? ?| |], row; simpl;
    try destruct new_status;
    repeat match goal with |- context [decide ?P] => destruct (decide P) end;
    destruct d; simpl in *; split_and!; try done;
    first [by eexists DefectStatus.FIXED | by eexists DefectStatus.VERIFIED
          | by eexists DefectStatus.CLOSED | by eexists DefectStatus.NEW
          | by eexists DefectStatus.OPEN | by eexists DefectStatus.ASSIGNED
          | by eexists DefectStatus.IN_PROGRESS
          | by eexists DefectStatus.REOPENED
          | by eexists DefectStatus.DEFERRED
          | by eexists DefectStatus.REJECTED].
Qed.

Lemma step_valid s s' :
  step s s' → Forall valid_row (defects s) → Forall valid_row (defects s').
Proof.
  intros Hstep Hvalid.
  destruct Hstep as [s now_found now_log title description severity priority
                       found_by module kwargs|s c].
  - unfold create_defect.
    destruct severity as [sv|], priority as [p|], title, found_by; simpl;
      try done.
    apply Forall_app. split; [done|]. apply Forall_singleton.
    split_and!; simpl; [by exists DefectStatus.NEW|by exists sv|by exists p].
  - rewrite run_call_defects. unfold update_where_id.
    apply Forall_fmap. eapply Forall_impl; [exact Hvalid|].
    intros d Hd. simpl. destruct (decide _); [|done].
    by apply valid_row_update.
Qed.

(** X4: in every store the methods build, each row's status, severity
    and priority is a value of its enumeration. *)
Theorem reachable_rows_valid s :
  reachable s → Forall valid_row (defects s).
Proof.
  unfold reachable. revert s. apply rtc_ind_r.
  - constructor.
  - intros s1 s2 Hreach Hstep IH. by apply (step_valid s1 s2).
Qed.

Lemma reachable_rows_valid_witness :
  reachable refix_fixed ∧ Forall valid_row (defects refix_fixed).
Proof.
  split; [exact reachable_refix_fixed|].
  apply (reachable_rows_valid refix_fixed). exact reachable_refix_fixed.
Defined.

(** ** What the mutating methods keep *)

(** X5: whatever calls of [update_status], [assign_defect] and
    [add_resolution] are made, the table keeps its rows in place, and
    each row keeps its id, title, description, severity, priority,
    module, reporter, [found_date] and the descriptive columns set at
    creation. *)
Theorem run_keeps_frozen calls : ∀ s,
  frozen <$> defects (run s calls).1 = frozen <$> defects s.
Proof.
  induction calls as [|c calls IH]; intros s; [done|].
  simpl. destruct (run_call s c) as [s1 r] eqn:Hc.
  specialize (IH s1). destruct (run s1 calls) as [s2 rs]. simpl in *.
  rewrite IH. replace s1 with (run_call s c).1 by by rewrite Hc.
  rewrite run_call_defects. unfold update_where_id.
  rewrite <- list_fmap_compose. apply list_fmap_ext. intros i d _. simpl.
  destruct (decide _); [apply call_update_frozen|done].
Qed.

Lemma step_prefix s s' :
  step s s' →
  defect_history s `prefix_of` defect_history s' ∧
  (Defect.id <$> defects s) `prefix_of` (Defect.id <$> defects s').
Proof.
  intros Hstep. destruct (step_shape s s' Hstep) as [Hhist Hids]. split.
  - destruct Hhist as [->|(h & -> & _)]; [done|by apply prefix_app_r].
  - destruct Hids as [->| ->]; [done|by apply prefix_app_r].
Qed.

(** X6: method calls only ever append: the log before any sequence of
    calls is an initial segment of the log after it, row for row, and
    so is the sequence of defect ids; no log row is rewritten or
    removed and no defect disappears. *)
Theorem steps_append_only s s' :
  rtc step s s' →
  defect_history s `prefix_of` defect_history s' ∧
  (Defect.id <$> defects s) `prefix_of` (Defect.id <$> defects s').
Proof.
  intros Hsteps. induction Hsteps as [s|s1 s2 s3 Hstep Hsteps IH]; [done|].
  destruct (step_prefix s1 s2 Hstep) as [Hh Hd]. destruct IH as [Hh' Hd'].
  split; by etrans.
Qed.

Lemma steps_append_only_witness :
  rtc step refix_created refix_fixed ∧
  defect_history refix_created `prefix_of` defect_history refix_fixed ∧
  (Defect.id <$> defects refix_created)
    `prefix_of` (Defect.id <$> defects refix_fixed).
Proof.
  assert (rtc step refix_created refix_fixed) as Hsteps.
  { apply rtc_once.
    apply (step_call refix_created
             (UpdateStatus 10 11 1 DefectStatus.FIXED "bob" None)). }
  split; [exact Hsteps|].
  apply (steps_append_only refix_created refix_fixed). exact Hsteps.
Defined.

(** X7: a mutating call answers [False] only when it is
    [update_status] or [assign_defect] on an id that selects no row,
    and then the store is untouched; [add_resolution] never answers
    [False]. *)
Theorem run_call_false s c :
  (run_call s c).2 = false →
  (run_call s c).1 = s ∧
  select_by_id s (call_target c) = None ∧
  ∀ now_log defect_id resolution root_cause resolved_by,
    c ≠ AddResolution now_log defect_id resolution root_cause resolved_by.
Proof.
  destruct c as [now_date now_log defect_id new_status who comment
                |now_log defect_id assignee who comment
                |now_log defect_id resolution root_cause resolved_by];
    simpl.
  - unfold update_status. by destruct (select_by_id s defect_id).
  - unfold assign_defect. by destruct (select_by_id s defect_id).
  - by rewrite add_resolution_unfold.
Qed.

Lemma run_call_false_witness :
  (run_call refix_created (AssignDefect 3 7 "bob" "ann" None)).2 = false ∧
  (run_call refix_created (AssignDefect 3 7 "bob" "ann" None)).1
  = refix_created ∧
  select_by_id refix_created
    (call_target (AssignDefect 3 7 "bob" "ann" None)) = None ∧
  ∀ now_log defect_id resolution root_cause resolved_by,
    AssignDefect 3 7 "bob" "ann" None
    ≠ AddResolution now_log defect_id resolution root_cause resolved_by.
Proof.
  split; [reflexivity|].
  apply (run_call_false refix_created (AssignDefect 3 7 "bob" "ann" None)).
  reflexivity.
Defined.

(** ** The declared foreign key *)

Lemma foreign_keys_hold_ids s :
  foreign_keys_hold s
  ↔ ∀ h, h ∈ defect_history s →
         History.defect_id h ∈ Defect.id <$> defects s.
Proof.
  unfold foreign_keys_hold. split; intros Hfk h Hh.
  - destruct (Hfk h Hh) as (d & Hd & <-). apply list_elem_of_fmap. eauto.
  - specialize (Hfk h Hh). apply list_elem_of_fmap in Hfk as (d & -> & Hd).
    eauto.
Qed.

(** X8: a store that respects the foreign key of [defect_history]
    still does after [create_defect], and after a mutating call it does
    exactly when the call was not [add_resolution] with a true
    [resolved_by] on an id that selects no row. *)
Theorem foreign_keys_kept s :
  foreign_keys_hold s →
  (∀ now_found now_log title description severity priority found_by module
     kwargs,
     foreign_keys_hold
       (create_defect s now_found now_log title description severity
          priority found_by module kwargs).1) ∧
  (∀ c, foreign_keys_hold (run_call s c).1 ↔ ¬ orphan_write s c).
Proof.
  intros Hfk. split.
  - intros now_found now_log title description severity priority found_by
      module kwargs.
    unfold create_defect.
    destruct severity, priority, title, found_by; simpl; try done.
    apply foreign_keys_hold_ids. simpl. intros h Hh.
    rewrite fmap_app. apply elem_of_app.
    apply elem_of_app in Hh as [Hh|Hh].
    + left. by apply foreign_keys_hold_ids.
    + right. apply list_elem_of_singleton in Hh as ->. simpl. by left.
  - intros c. rewrite foreign_keys_hold_ids, run_call_defects.
    rewrite update_where_id_ids by apply call_update_keeps_id.
    rewrite foreign_keys_hold_ids in Hfk.
    destruct c as [now_date now_log defect_id new_status who comment
                  |now_log defect_id assignee who comment
                  |now_log defect_id resolution root_cause resolved_by];
      simpl.
    + split; [tauto|]. intros _ h. unfold update_status.
      destruct (select_by_id s defect_id) as [row|] eqn:Hrow; simpl;
        [|by apply Hfk].
      intros Hh. apply elem_of_app in Hh as [Hh|Hh]; [by apply Hfk|].
      apply list_elem_of_singleton in Hh as ->. simpl.
      apply select_by_id_Some in Hrow as [Hrow <-].
      apply list_elem_of_fmap. eauto.
    + split; [tauto|]. intros _ h. unfold assign_defect.
      destruct (select_by_id s defect_id) as [row|] eqn:Hrow; simpl;
        [|by apply Hfk].
      intros Hh. apply elem_of_app in Hh as [Hh|Hh]; [by apply Hfk|].
      apply list_elem_of_singleton in Hh as ->. simpl.
      apply select_by_id_Some in Hrow as [Hrow <-].
      apply list_elem_of_fmap. eauto.
    + rewrite add_resolution_unfold. simpl.
      destruct (truthy resolved_by) eqn:Hwho; simpl.
      * split.
        -- intros Hall [_ Hnone]. apply select_by_id_None in Hnone.
           apply Hnone. apply (Hall (History.mk
             (next_rowid (history_seq s) (History.id <$> defect_history s))
             defect_id (default "" resolved_by) now_log (Some "resolution")
             None (Some resolution)
             (Some ("Root cause: " +:+ py_str root_cause)))).
           apply elem_of_app. right. by left.
        -- intros Hnot h Hh.
           apply elem_of_app in Hh as [Hh|Hh]; [by apply Hfk|].
           apply list_elem_of_singleton in Hh as ->. simpl.
           destruct (decide (defect_id ∈ Defect.id <$> defects s))
             as [Hin|Hout]; [done|].
           exfalso. apply Hnot. split; [done|].
           by apply select_by_id_None.
      * split; [|intros _; exact Hfk]. intros _ [Hw _]. done.
Qed.

Lemma foreign_keys_kept_witness :
  foreign_keys_hold empty_db ∧
  (∀ now_found now_log title description severity priority found_by module
     kwargs,
     foreign_keys_hold
       (create_defect empty_db now_found now_log title description severity
          priority found_by module kwargs).1) ∧
  (∀ c, foreign_keys_hold (run_call empty_db c).1 ↔ ¬ orphan_write empty_db c).
Proof.
  assert (foreign_keys_hold empty_db) as Hfk.
  { intros h Hh. simpl in Hh. inversion Hh. }
  split; [exact Hfk|].
  apply (foreign_keys_kept empty_db). exact Hfk.
Defined.

(** ** [update_status]: the row and the log *)

Lemma select_by_id_update s target set hist seq1 seq2 key :
  keeps_id set →
  select_by_id (mkDb (update_where_id target set (defects s)) hist seq1 seq2)
    key
  = (if decide (key = target) then set else id) <$> select_by_id s key.
Proof. intros Hset. unfold select_by_id. simpl. by apply head_filter_update. Qed.

(** X9: for an existing defect, [update_status] succeeds and sets the
    status; putting the former status and the three former dates back
    gives the former row, so no other column moved; rows under other
    ids are as before; one log row is appended, which records the
    status the defect had as [old_value] and the new one as
    [new_value]. *)
Theorem update_status_effect s now_date now_log defect_id new_status who
    comment d :
  select_by_id s defect_id = Some d →
  let '(s', r) :=
    update_status s now_date now_log defect_id new_status who comment in
  r = true ∧
  (∃ d',
     select_by_id s' defect_id = Some d' ∧
     Defect.status d' = DefectStatus.value new_status ∧
     Defect.set_status (Defect.status d)
       (Defect.set_fixed_date (Defect.fixed_date d)
          (Defect.set_verified_date (Defect.verified_date d)
             (Defect.set_closed_date (Defect.closed_date d) d'))) = d) ∧
  (∀ key, key ≠ defect_id → select_by_id s' key = select_by_id s key) ∧
  ∃ h,
    defect_history s' = defect_history s ++ [h] ∧
    History.defect_id h = defect_id ∧
    History.changed_by h = who ∧
    History.change_date h = now_log ∧
    History.field_changed h = Some "status" ∧
    History.old_value h = Some (Defect.status d) ∧
    History.new_value h = Some (DefectStatus.value new_status) ∧
    History.comment h = comment.
Proof.
  intros Hd. unfold update_status. rewrite Hd.
  split; [done|]. split; [|split].
  - rewrite select_by_id_log_change, select_by_id_update, Hd
      by (destruct new_status; keeps_id).
    rewrite decide_True by done. simpl. eexists. split; [done|].
    by destruct new_status, d.
  - intros key Hkey.
    rewrite select_by_id_log_change, select_by_id_update
      by (destruct new_status; keeps_id).
    rewrite decide_False by done. apply option_fmap_id.
  - eexists. split; [done|]. done.
Qed.

Lemma update_status_effect_witness :
  ∃ d,
    select_by_id refix_fixed 1 = Some d ∧
    let '(s', r) :=
      update_status refix_fixed 12 13 1 DefectStatus.REOPENED "ann" None in
    r = true ∧
    (∃ d',
       select_by_id s' 1 = Some d' ∧
       Defect.status d' = DefectStatus.value DefectStatus.REOPENED ∧
       Defect.set_status (Defect.status d)
         (Defect.set_fixed_date (Defect.fixed_date d)
            (Defect.set_verified_date (Defect.verified_date d)
               (Defect.set_closed_date (Defect.closed_date d) d'))) = d) ∧
    (∀ key, key ≠ 1 → select_by_id s' key = select_by_id refix_fixed key) ∧
    ∃ h,
      defect_history s' = defect_history refix_fixed ++ [h] ∧
      History.defect_id h = 1 ∧
      History.changed_by h = "ann" ∧
      History.change_date h = 13 ∧
      History.field_changed h = Some "status" ∧
      History.old_value h = Some (Defect.status d) ∧
      History.new_value h = Some (DefectStatus.value DefectStatus.REOPENED) ∧
      History.comment h = None.
Proof.
  eexists. split; [reflexivity|].
  apply (update_status_effect refix_fixed 12 13 1 DefectStatus.REOPENED
           "ann" None).
  reflexivity.
Defined.

(** X10: setting an existing defect to the status it already has is
    accepted like any other change: setting a status twice in a row
    succeeds both times, leaves that status, and appends two log rows,
    the second of which records the same status as old and as new
    value. *)
Theorem update_status_twice s t1 l1 t2 l2 defect_id new_status who1 who2
    comment1 comment2 d :
  select_by_id s defect_id = Some d →
  let '(s1, r1) :=
    update_status s t1 l1 defect_id new_status who1 comment1 in
  let '(s2, r2) :=
    update_status s1 t2 l2 defect_id new_status who2 comment2 in
  r1 = true ∧ r2 = true ∧
  Defect.status <$> select_by_id s2 defect_id
  = Some (DefectStatus.value new_status) ∧
  ∃ h1 h2,
    defect_history s2 = defect_history s ++ [h1; h2] ∧
    History.old_value h1 = Some (Defect.status d) ∧
    History.new_value h1 = Some (DefectStatus.value new_status) ∧
    History.old_value h2 = Some (DefectStatus.value new_status) ∧
    History.new_value h2 = Some (DefectStatus.value new_status).
Proof.
  intros Hd.
  destruct (update_status s t1 l1 defect_id new_status who1 comment1)
    as [s1 r1] eqn:Hcall.
  unfold update_status in Hcall. rewrite Hd in Hcall.
  injection Hcall as Hs1 <-.
  assert (∃ d1, select_by_id s1 defect_id = Some d1 ∧
                Defect.status d1 = DefectStatus.value new_status)
    as (d1 & Hd1 & Hst1).
  { rewrite <- Hs1.
    rewrite select_by_id_log_change, select_by_id_update, Hd
      by (destruct new_status; keeps_id).
    rewrite decide_True by done. simpl. eexists. split; [done|].
    by destruct new_status. }
  unfold update_status. rewrite Hd1.
  split; [done|]. split; [done|]. split.
  - rewrite select_by_id_log_change, select_by_id_update, Hd1
      by (destruct new_status; keeps_id).
    rewrite decide_True by done. simpl. f_equal. by destruct new_status.
  - do 2 eexists. split.
    + simpl. rewrite <- Hs1. simpl. rewrite <- app_assoc. simpl. done.
    + simpl. by rewrite Hst1.
Qed.

Lemma update_status_twice_witness :
  ∃ d,
    select_by_id refix_created 1 = Some d ∧
    let '(s1, r1) :=
      update_status refix_created 2 3 1 DefectStatus.OPEN "ann" None in
    let '(s2, r2) :=
      update_status s1 4 5 1 DefectStatus.OPEN "bob" (Some "again") in
    r1 = true ∧ r2 = true ∧
    Defect.status <$> select_by_id s2 1
    = Some (DefectStatus.value DefectStatus.OPEN) ∧
    ∃ h1 h2,
      defect_history s2 = defect_history refix_created ++ [h1; h2] ∧
      History.old_value h1 = Some (Defect.status d) ∧
      History.new_value h1 = Some (DefectStatus.value DefectStatus.OPEN) ∧
      History.old_value h2 = Some (DefectStatus.value DefectStatus.OPEN) ∧
      History.new_value h2 = Some (DefectStatus.value DefectStatus.OPEN).
Proof.
  eexists. split; [reflexivity|].
  apply (update_status_twice refix_created 2 3 4 5 1 DefectStatus.OPEN
           "ann" "bob" None (Some "again")).
  reflexivity.
Defined.

(** ** [search_defects] and the other methods *)

Lemma search_defects_filter s criteria :
  search_defects s criteria = filter (matches criteria) (defects s).
Proof.
  unfold search_defects, execute_select.
  apply list_filter_iff. intros d. unfold matches.
  rewrite eval_where_true.
  destruct criteria as [[st|] [sv|] [pr|] [asg|] [md|]]; simpl;
    rewrite ?Forall_cons, Forall_nil; unfold eval_clause;
    rewrite ?sql_eq_true; tauto.
Qed.

Lemma search_by_status s st :
  search_defects s (by_status_criteria st)
  = filter (λ d, Defect.status d = st) (defects s).
Proof.
  rewrite search_defects_filter. apply list_filter_iff. intros d.
  unfold matches, by_status_criteria. simpl.
  split; [intros (H & _); congruence|intros ->; done].
Qed.

(** X11: after [update_status] on an existing defect, a search by the
    new status returns the defect, and a search by any other status
    returns no row with its id. *)
Theorem search_after_update_status s now_date now_log defect_id new_status
    who comment d :
  select_by_id s defect_id = Some d →
  let s' :=
    (update_status s now_date now_log defect_id new_status who comment).1 in
  (∃ d', d' ∈ search_defects s'
                (by_status_criteria (DefectStatus.value new_status)) ∧
         Defect.id d' = defect_id) ∧
  ∀ st d', st ≠ DefectStatus.value new_status →
           d' ∈ search_defects s' (by_status_criteria st) →
           Defect.id d' ≠ defect_id.
Proof.
  intros Hd s'.
  assert (defects s'
          = update_where_id defect_id
              (call_update (Some d)
                 (UpdateStatus now_date now_log defect_id new_status who
                    comment))
              (defects s)) as Hrows.
  { unfold s'.
    change (update_status s now_date now_log defect_id new_status who comment)
      with (run_call s (UpdateStatus now_date now_log defect_id new_status
                          who comment)).
    rewrite run_call_defects. simpl. by rewrite Hd. }
  assert (∀ x, Defect.status
                 (call_update (Some d)
                    (UpdateStatus now_date now_log defect_id new_status who
                       comment) x)
               = DefectStatus.value new_status) as Hstatus
    by (intros x; by destruct new_status).
  apply select_by_id_Some in Hd as [Hin Hid].
  split.
  - exists (call_update (Some d)
              (UpdateStatus now_date now_log defect_id new_status who
                 comment) d).
    split; [|by rewrite call_update_keeps_id].
    rewrite search_by_status. apply list_elem_of_filter.
    split; [apply Hstatus|].
    rewrite Hrows. unfold update_where_id. apply list_elem_of_fmap.
    exists d. split; [|done]. by rewrite decide_True.
  - intros st d' Hst Hd' Hid'.
    rewrite search_by_status in Hd'.
    apply list_elem_of_filter in Hd' as [Hst' Hd'].
    rewrite Hrows in Hd'. unfold update_where_id in Hd'.
    apply list_elem_of_fmap in Hd' as (x & -> & Hx).
    destruct (decide (Defect.id x = defect_id)) as [Hx'|Hx'].
    + rewrite Hstatus in Hst'. congruence.
    + done.
Qed.

Lemma search_after_update_status_witness :
  ∃ d,
    select_by_id refix_created 1 = Some d ∧
    let s' :=
      (update_status refix_created 10 11 1 DefectStatus.FIXED "bob" None).1 in
    (∃ d', d' ∈ search_defects s'
                  (by_status_criteria
                     (DefectStatus.value DefectStatus.FIXED)) ∧
           Defect.id d' = 1) ∧
    ∀ st d', st ≠ DefectStatus.value DefectStatus.FIXED →
             d' ∈ search_defects s' (by_status_criteria st) →
             Defect.id d' ≠ 1.
Proof.
  eexists. split; [reflexivity|].
  eapply (search_after_update_status refix_created 10 11 1 DefectStatus.FIXED
            "bob" None).
  reflexivity.
Defined.

Lemma criteria_extend_matches weaker stricter d :
  criteria_extend weaker stricter → matches stricter d → matches weaker d.
Proof.
  unfold criteria_extend, matches, criterion_holds.
  intros (H1 & H2 & H3 & H4 & H5) (M1 & M2 & M3 & M4 & M5).
  destruct weaker as [[st|] [sv|] [pr|] [asg|] [md|]]; simpl in *;
    repeat match goal with
           | H : ∀ v, Some ?x = Some v → _ |- _ => specialize (H x eq_refl)
           | H : ∀ v, None = Some v → _ |- _ => clear H
           end;
    repeat match goal with H : _ = Some _ |- _ => rewrite H in * end;
    done.
Qed.

(** X12: a search returns rows of the table in table order; with
    criteria added to a criteria set, the search returns what filtering
    the result of the weaker search by the stricter set gives, hence a
    subsequence of it. *)
Theorem search_defects_narrows s weaker stricter :
  criteria_extend weaker stricter →
  search_defects s weaker `sublist_of` defects s ∧
  search_defects s stricter
  = filter (matches stricter) (search_defects s weaker) ∧
  search_defects s stricter `sublist_of` search_defects s weaker.
Proof.
  intros Hext. rewrite !search_defects_filter.
  split; [apply sublist_filter|].
  assert (filter (matches stricter) (defects s)
          = filter (matches stricter) (filter (matches weaker) (defects s)))
    as Heq.
  { rewrite list_filter_filter. apply list_filter_iff. intros d.
    split; [|tauto]. intros Hm. split; [done|].
    by apply (criteria_extend_matches weaker stricter). }
  split; [exact Heq|]. rewrite Heq. apply sublist_filter.
Qed.

Lemma search_defects_narrows_witness :
  criteria_extend (by_status_criteria "Fixed")
    (Criteria.mk (Some "Fixed") None (Some 2) None None) ∧
  search_defects refix_fixed (by_status_criteria "Fixed")
    `sublist_of` defects refix_fixed ∧
  search_defects refix_fixed
    (Criteria.mk (Some "Fixed") None (Some 2) None None)
  = filter (matches (Criteria.mk (Some "Fixed") None (Some 2) None None))
      (search_defects refix_fixed (by_status_criteria "Fixed")) ∧
  search_defects refix_fixed
    (Criteria.mk (Some "Fixed") None (Some 2) None None)
    `sublist_of` search_defects refix_fixed (by_status_criteria "Fixed").
Proof.
  assert (criteria_extend (by_status_criteria "Fixed")
            (Criteria.mk (Some "Fixed") None (Some 2) None None)) as Hext.
  { unfold criteria_extend. simpl. split_and!; intros v Hv;
      first [exact Hv | discriminate Hv]. }
  split; [exact Hext|].
  apply (search_defects_narrows refix_fixed (by_status_criteria "Fixed")
           (Criteria.mk (Some "Fixed") None (Some 2) None None)).
  exact Hext.
Defined.

(** X13: the metrics agree with the search: a bucket of [by_status]
    holds the number of defects a search by that status returns, and
    does not exist when the search returns none; [reopened_count] is
    the number of defects a search by status Reopened returns, and the
    Reopened bucket of [by_status] when there is one. *)
Theorem metrics_agree_with_search s :
  (∀ st,
     by_status s !! st
     = (let n := length (search_defects s (by_status_criteria st)) in
        if decide (n = 0%nat) then None else Some n)) ∧
  reopened_count s
  = length (search_defects s (by_status_criteria "Reopened")) ∧
  reopened_count s = default 0%nat (by_status s !! "Reopened").
Proof.
  assert (∀ st,
            length (filter (λ x, x = st) (Defect.status <$> defects s))
            = length (filter (λ d, Defect.status d = st) (defects s)))
    as Hcount.
  { intros st. induction (defects s) as [|d rows IH]; [done|].
    rewrite fmap_cons, !filter_cons.
    destruct (decide (Defect.status d = st)); simpl; by rewrite IH. }
  assert (∀ st,
            by_status s !! st
            = (let n :=
                 length (search_defects s (by_status_criteria st)) in
               if decide (n = 0%nat) then None else Some n)) as Hbucket.
  { intros st. unfold by_status. rewrite group_count_lookup. simpl.
    by rewrite Hcount, search_by_status. }
  split; [exact Hbucket|]. split.
  - unfold reopened_count. by rewrite search_by_status.
  - rewrite Hbucket. simpl. unfold reopened_count.
    rewrite search_by_status.
    by destruct (decide (length _ = 0%nat)) as [->|].
Qed.

(** ** Calls against different defects *)







(** ** [get_metrics]: counts by severity and by priority *)

Lemma total_int_insert (m : gmap Z nat) k n :
  m !! k = None → total_int (<[k := n]> m) = (n + total_int m)%nat.
Proof.
  intros Hk. unfold total_int.
  rewrite map_fold_insert_L; [done|intros; lia|done].
Qed.

Lemma total_int_insert_succ (m : gmap Z nat) k :
  total_int (<[k := S (default 0%nat (m !! k))]> m) = S (total_int m).
Proof.
  destruct (m !! k) as [n|] eqn:Hk; simpl.
  - rewrite <- insert_delete_eq.
    rewrite total_int_insert by apply lookup_delete_eq.
    unfold total_int.
    rewrite (map_fold_delete_L _ _ k n m); [done|intros; lia|done].
  - by rewrite total_int_insert.
Qed.

Lemma total_int_group_count ks : total_int (group_count_int ks) = length ks.
Proof.
  induction ks as [|k ks IH]; [done|].
  simpl. by rewrite total_int_insert_succ, IH.
Qed.

Lemma group_count_int_lookup ks k :
  group_count_int ks !! k
  = (let n := length (filter (λ x, x = k) ks) in
     if decide (n = 0%nat) then None else Some n).
Proof.
  induction ks as [|x ks IH]; [done|].
  simpl in *. rewrite filter_cons.
  destruct (decide (x = k)) as [->|Hne].
  - rewrite lookup_insert_eq, IH. simpl.
    by destruct (decide (length (filter (λ x, x = k) ks) = 0%nat)) as [->|].
  - by rewrite lookup_insert_ne.
Qed.

Lemma total_insert_fresh (m : gmap string nat) k n :
  m !! k = None → total (<[k := n]> m) = (n + total m)%nat.
Proof.
  intros Hk. unfold total.
  rewrite map_fold_insert_L; [done|intros; lia|done].
Qed.

Section name_counts.
Context {T : Type} (member : Z → option T) (name : T → string)
  (value : T → Z).
Hypothesis member_value : ∀ v t, member v = Some t ↔ v = value t.
Hypothesis name_inj : ∀ t1 t2, name t1 = name t2 → t1 = t2.

(** What the loop has built when it ends without an exception. *)
Definition named (rows : gmap Z nat) (counts : gmap string nat) : Prop :=
  (∀ t, counts !! name t = rows !! value t) ∧
  (∀ k, (∀ t, k ≠ name t) → counts !! k = None) ∧
  total counts = total_int rows.

Lemma value_inj t1 t2 : value t1 = value t2 → t1 = t2.
Proof.
  intros Hv.
  assert (member (value t1) = Some t1) as H1 by by apply member_value.
  assert (member (value t1) = Some t2) as H2 by by apply member_value.
  congruence.
Qed.

Lemma name_counts_spec (rows : gmap Z nat) :
  (is_Some (name_counts member name rows)
   ↔ ∀ v n, rows !! v = Some n → is_Some (member v)) ∧
  ∀ counts, name_counts member name rows = Some counts → named rows counts.
Proof.
  unfold name_counts.
  apply (map_fold_weak_ind
           (λ r m,
              (is_Some r ↔ ∀ v n, m !! v = Some n → is_Some (member v)) ∧
              ∀ counts, r = Some counts → named m counts)).
  - split.
    + split; [intros _ v n Hv; by rewrite lookup_empty in Hv|eauto].
    + intros counts [= <-]. split_and!; intros; by rewrite ?lookup_empty.
  - intros v n m r Hfresh [IHsome IHnamed]. split.
    + split.
      * intros [counts' Hr] v' n' Hv'.
        destruct r as [counts|]; simpl in Hr; [|done].
        destruct (member v) as [t|] eqn:Ht; simpl in Hr; [|done].
        destruct (decide (v = v')) as [<-|Hne]; [by rewrite Ht|].
        rewrite lookup_insert_ne in Hv' by done.
        apply IHsome in Hv'; eauto.
      * intros Hall.
        assert (is_Some r) as [counts ->].
        { apply IHsome. intros v' n' Hv'. apply (Hall v' n').
          rewrite lookup_insert_ne; [done|]. intros <-. congruence. }
        destruct (Hall v n) as [t Ht]; [by rewrite lookup_insert_eq|].
        simpl. rewrite Ht. simpl. eauto.
    + intros counts' Hr.
      destruct r as [counts|]; simpl in Hr; [|done].
      destruct (member v) as [t|] eqn:Ht; simpl in Hr; [|done].
      injection Hr as <-.
      apply member_value in Ht as ->.
      destruct (IHnamed counts eq_refl) as (Hnames & Hother & Htotal).
      split_and!.
      * intros t'. destruct (decide (value t' = value t)) as [Heq|Hne].
        -- apply value_inj in Heq as ->. by rewrite !lookup_insert_eq.
        -- rewrite !lookup_insert_ne; [apply Hnames|congruence|].
           intros Hn. apply name_inj in Hn. congruence.
      * intros k Hk. rewrite lookup_insert_ne by (intros <-; by apply (Hk t)).
        by apply Hother.
      * rewrite total_insert_fresh, total_int_insert, Htotal; [done..|].
        by rewrite Hnames.
Qed.
End name_counts.

Lemma DefectSeverity_member v sv :
  DefectSeverity_of_value v = Some sv ↔ v = DefectSeverity.value sv.
Proof.
  split.
  - destruct v as [|[[[]|[]|]|[[]|[]|]|]|]; simpl; intros [= <-]; done.
  - intros ->. by destruct sv.
Qed.

Lemma DefectPriority_member v p :
  DefectPriority_of_value v = Some p ↔ v = DefectPriority.value p.
Proof.
  split.
  - destruct v as [|[[[]|[]|]|[[]|[]|]|]|]; simpl; intros [= <-]; done.
  - intros ->. by destruct p.
Qed.

Lemma DefectSeverity_name_inj sv1 sv2 :
  DefectSeverity_name sv1 = DefectSeverity_name sv2 → sv1 = sv2.
Proof. by destruct sv1, sv2. Qed.

Lemma DefectPriority_name_inj p1 p2 :
  DefectPriority_name p1 = DefectPriority_name p2 → p1 = p2.
Proof. by destruct p1, p2. Qed.

Lemma int_keys_count {A} (f : A → Z) (rows : list A) k :
  length (filter (λ x, x = k) (f <$> rows))
  = length (filter (λ d, f d = k) rows).
Proof.
  induction rows as [|d rows IH]; [done|].
  rewrite fmap_cons, !filter_cons.
  destruct (decide (f d = k)); simpl; by rewrite IH.
Qed.

(** X15: [by_severity] and [by_priority] end without a [ValueError]
    exactly when every row's severity (priority) is the value of a
    member; the dictionary then binds the name of each member that
    occurs to the number of defects carrying it, binds no other key,
    and its counts add up to the number of defects. *)
Theorem by_severity_by_priority_counts s :
  (is_Some (by_severity s)
   ↔ ∀ d, d ∈ defects s →
          is_Some (DefectSeverity_of_value (Defect.severity d))) ∧
  (∀ counts,
     by_severity s = Some counts →
     (∀ sv,
        counts !! DefectSeverity_name sv
        = (let n :=
             length (filter (λ d, Defect.severity d
                                  = DefectSeverity.value sv) (defects s)) in
           if decide (n = 0%nat) then None else Some n)) ∧
     (∀ k, (∀ sv, k ≠ DefectSeverity_name sv) → counts !! k = None) ∧
     total counts = length (defects s)) ∧
  (is_Some (by_priority s)
   ↔ ∀ d, d ∈ defects s →
          is_Some (DefectPriority_of_value (Defect.priority d))) ∧
  (∀ counts,
     by_priority s = Some counts →
     (∀ p,
        counts !! DefectPriority_name p
        = (let n :=
             length (filter (λ d, Defect.priority d
                                  = DefectPriority.value p) (defects s)) in
           if decide (n = 0%nat) then None else Some n)) ∧
     (∀ k, (∀ p, k ≠ DefectPriority_name p) → counts !! k = None) ∧
     total counts = length (defects s)).
Proof.
  assert (∀ {A} (f : A → Z) (rows : list A) (P : Z → Prop),
            (∀ v n, group_count_int (f <$> rows) !! v = Some n → P v)
            ↔ ∀ d, d ∈ rows → P (f d)) as Hkeys.
  { intros A f rows P. split.
    - intros Hall d Hd.
      apply (Hall (f d) (length (filter (λ x, x = f d) (f <$> rows)))).
      rewrite group_count_int_lookup. simpl.
      rewrite decide_False; [done|].
      rewrite int_keys_count.
      assert (d ∈ filter (λ d', f d' = f d) rows) as Hin
        by by apply list_elem_of_filter.
      destruct (filter _ rows); [by apply elem_of_nil in Hin|done].
    - intros Hall v n Hv. rewrite group_count_int_lookup in Hv. simpl in Hv.
      destruct (decide _) as [|Hn]; [done|].
      rewrite int_keys_count in Hn.
      destruct (filter (λ d, f d = v) rows) as [|d l] eqn:Hf; [done|].
      assert (d ∈ filter (λ d, f d = v) rows) as Hin
        by (rewrite Hf; by left).
      apply list_elem_of_filter in Hin as [<- Hin]. by apply Hall. }
  pose proof (name_counts_spec DefectSeverity_of_value DefectSeverity_name
                DefectSeverity.value DefectSeverity_member
                DefectSeverity_name_inj
                (group_count_int (Defect.severity <$> defects s)))
    as [Hsev1 Hsev2].
  pose proof (name_counts_spec DefectPriority_of_value DefectPriority_name
                DefectPriority.value DefectPriority_member
                DefectPriority_name_inj
                (group_count_int (Defect.priority <$> defects s)))
    as [Hpri1 Hpri2].
  unfold by_severity, by_priority. split_and!.
  - rewrite Hsev1. apply Hkeys.
  - intros counts Hc. destruct (Hsev2 counts Hc) as (Hn & Ho & Ht).
    split_and!; [|done|by rewrite Ht, total_int_group_count, length_fmap].
    intros sv. rewrite Hn, group_count_int_lookup. simpl.
    by rewrite int_keys_count.
  - rewrite Hpri1. apply Hkeys.
  - intros counts Hc. destruct (Hpri2 counts Hc) as (Hn & Ho & Ht).
    split_and!; [|done|by rewrite Ht, total_int_group_count, length_fmap].
    intros p. rewrite Hn, group_count_int_lookup. simpl.
    by rewrite int_keys_count.
Qed.

(** X16: on every store the methods build, [by_severity] and
    [by_priority] end without a [ValueError]. *)
Theorem reachable_metrics_defined s :
  reachable s → is_Some (by_severity s) ∧ is_Some (by_priority s).
Proof.
  intros Hreach.
  assert (Forall valid_row (defects s)) as Hvalid.
  { revert s Hreach. apply rtc_ind_r; [constructor|].
    intros s1 s2 _ Hstep IH. by apply (step_valid s1 s2). }
  rewrite Forall_forall in Hvalid.
  pose proof (name_counts_spec DefectSeverity_of_value DefectSeverity_name
                DefectSeverity.value DefectSeverity_member
                DefectSeverity_name_inj
                (group_count_int (Defect.severity <$> defects s)))
    as [Hsev _].
  pose proof (name_counts_spec DefectPriority_of_value DefectPriority_name
                DefectPriority.value DefectPriority_member
                DefectPriority_name_inj
                (group_count_int (Defect.priority <$> defects s)))
    as [Hpri _].
  assert (∀ (f : Defect.t → Z) v n,
            group_count_int (f <$> defects s) !! v = Some n →
            ∃ d, d ∈ defects s ∧ f d = v) as Hkey.
  { intros f v n Hv. rewrite group_count_int_lookup in Hv. simpl in Hv.
    destruct (decide _) as [|Hn]; [done|].
    rewrite int_keys_count in Hn.
    destruct (filter (λ d, f d = v) (defects s)) as [|d l] eqn:Hf; [done|].
    assert (d ∈ filter (λ d, f d = v) (defects s)) as Hin
      by (rewrite Hf; by left).
    apply list_elem_of_filter in Hin as [<- Hin]. eauto. }
  split.
  - apply Hsev. intros v n Hv.
    destruct (Hkey _ v n Hv) as (d & Hd & <-).
    destruct (Hvalid d Hd) as (_ & [sv Hsv] & _).
    exists sv. by apply DefectSeverity_member.
  - apply Hpri. intros v n Hv.
    destruct (Hkey _ v n Hv) as (d & Hd & <-).
    destruct (Hvalid d Hd) as (_ & _ & [p Hp]).
    exists p. by apply DefectPriority_member.
Qed.

Lemma reachable_metrics_defined_witness :
  reachable refix_fixed ∧
  is_Some (by_severity refix_fixed) ∧ is_Some (by_priority refix_fixed).
Proof.
  split; [exact reachable_refix_fixed|].
  apply (reachable_metrics_defined refix_fixed). exact reachable_refix_fixed.
Defined.

(** ** [export_defects] *)

Lemma export_selection_filter s status_filter :
  export_selection s status_filter
  = if truthy status_filter
    then filter (λ d, Defect.status d = default "" status_filter) (defects s)
    else defects s.
Proof.
  unfold export_selection.
  assert (search_defects s Criteria.empty = defects s) as Hall
    by apply execute_select_all.
  destruct status_filter as [st|]; [|done].
  destruct (truthy (Some st)); [|done].
  apply (search_by_status s st).
Qed.

(** X17: [export_defects] works on all defects when [status_filter] is
    absent or the empty string, and otherwise on exactly the defects
    with that status, in table order. *)
Theorem export_selection_cases s :
  export_selection s None = defects s ∧
  export_selection s (Some "") = defects s ∧
  ∀ st, st ≠ "" →
        export_selection s (Some st)
        = filter (λ d, Defect.status d = st) (defects s).
Proof.
  split_and!; [by rewrite export_selection_filter..|].
  intros st Hst. rewrite export_selection_filter. simpl.
  destruct (String.eqb st "") eqn:Heq; [|done].
  by apply String.eqb_eq in Heq.
Qed.

Lemma valid_row_markdown d : valid_row d → is_Some (markdown_row d).
Proof.
  intros (_ & [sv Hsv] & [p Hp]). unfold markdown_row.
  rewrite Hsv, Hp. by destruct sv, p.
Qed.

Lemma valid_row_text d : valid_row d → is_Some (text_entry d).
Proof.
  intros (_ & [sv Hsv] & _). unfold text_entry. rewrite Hsv. by destruct sv.
Qed.

Section export_properties.
Variable isoformat : timestamp → string.
Variable json_dumps : list (list (string * sql_value)) → string.

(** X18: on a store whose rows hold values of the enumerations, as
    every store the methods build does, [export_defects] ends without
    a [ValueError], whatever the format and the filter. *)
Theorem export_defects_defined s format_type status_filter :
  Forall valid_row (defects s) →
  is_Some (export_defects isoformat json_dumps s format_type status_filter).
Proof.
  intros Hvalid.
  assert (Forall valid_row (export_selection s status_filter)) as Hsel.
  { rewrite export_selection_filter.
    destruct (truthy status_filter); [|done].
    rewrite Forall_forall in Hvalid |- *. intros d Hd.
    apply list_elem_of_filter in Hd as [_ Hd]. by apply Hvalid. }
  unfold export_defects.
  destruct (decide (format_type = "json")); [done|].
  destruct (decide (format_type = "csv")).
  { by destruct (export_selection s status_filter). }
  destruct (decide (format_type = "markdown")).
  - destruct (export_selection s status_filter) as [|d l] eqn:Hl; [done|].
    assert (is_Some (mapM markdown_row (d :: l))) as [rows ->]; [|done].
    apply mapM_is_Some. eapply Forall_impl; [exact Hsel|].
    intros x Hx. by apply valid_row_markdown.
  - assert (is_Some (mapM text_entry (export_selection s status_filter)))
      as [rows ->]; [|done].
    apply mapM_is_Some. eapply Forall_impl; [exact Hsel|].
    intros x Hx. by apply valid_row_text.
Qed.

(** X19: when no defect is selected, the CSV export is the sentence
    [No defects found] instead of a header line, the markdown export
    is the title with a total of 0 and no table, and the text export
    is the banner alone. *)
Theorem export_defects_nothing_selected s status_filter :
  export_selection s status_filter = [] →
  export_defects isoformat json_dumps s "csv" status_filter
  = Some "No defects found" ∧
  export_defects isoformat json_dumps s "markdown" status_filter
  = Some ("# Defect Report" +:+ nl +:+ nl
          +:+ "**Total Defects:** 0" +:+ nl +:+ nl) ∧
  export_defects isoformat json_dumps s "text" status_filter
  = Some ("DEFECT LIST" +:+ nl +:+ string_repeat "=" 50 +:+ nl +:+ nl).
Proof.
  intros Hnone. unfold export_defects. rewrite Hnone.
  by vm_compute.
Qed.
End export_properties.

Lemma export_defects_defined_witness :
  Forall valid_row (defects refix_fixed) ∧
  is_Some (export_defects (λ t, pretty t) (λ _, "[]") refix_fixed "markdown"
             (Some "Fixed")).
Proof.
  assert (Forall valid_row (defects refix_fixed)) as Hvalid.
  { simpl. apply Forall_cons. split; [|apply Forall_nil_2].
    split; [by exists DefectStatus.FIXED|].
    split; [by exists DefectSeverity.MAJOR|by exists DefectPriority.HIGH]. }
  split; [exact Hvalid|].
  apply (export_defects_defined (λ t, pretty t) (λ _, "[]") refix_fixed
           "markdown" (Some "Fixed")).
  exact Hvalid.
Defined.

Lemma export_defects_nothing_selected_witness :
  export_selection refix_fixed (Some "Open") = [] ∧
  export_defects (λ t, pretty t) (λ _, "[]") refix_fixed "csv" (Some "Open")
  = Some "No defects found" ∧
  export_defects (λ t, pretty t) (λ _, "[]") refix_fixed "markdown"
    (Some "Open")
  = Some ("# Defect Report" +:+ nl +:+ nl
          +:+ "**Total Defects:** 0" +:+ nl +:+ nl) ∧
  export_defects (λ t, pretty t) (λ _, "[]") refix_fixed "text" (Some "Open")
  = Some ("DEFECT LIST" +:+ nl +:+ string_repeat "=" 50 +:+ nl +:+ nl).
Proof.
  split; [reflexivity|].
  apply (export_defects_nothing_selected (λ t, pretty t) (λ _, "[]")
           refix_fixed (Some "Open")).
  reflexivity.
Defined.

(** ** Status counts under [update_status] *)

Lemma filter_length_update (P : Defect.t → Prop) `{!∀ d, Decision (P d)}
    target set rows d :
  NoDup (Defect.id <$> rows) →
  d ∈ rows → Defect.id d = target →
  (length (filter P (update_where_id target set rows))
   + (if decide (P d) then 1 else 0)
   = length (filter P rows) + (if decide (P (set d)) then 1 else 0))%nat.
Proof.
  intros Hnodup Hin Hid. unfold update_where_id.
  induction rows as [|x rows IH]; [by apply elem_of_nil in Hin|].
  rewrite fmap_cons in Hnodup. apply NoDup_cons in Hnodup as [Hx Hnodup].
  rewrite fmap_cons, !filter_cons.
  apply elem_of_cons in Hin as [->|Hin].
  - rewrite (decide_True (P := Defect.id x = target)) by done.
    assert ((λ d, if decide (Defect.id d = target) then set d else d) <$> rows
            = rows) as ->.
    { rewrite <- (list_fmap_id rows) at 2. apply list_fmap_ext.
      intros i y Hy. simpl.
      destruct (decide (Defect.id y = target)) as [Hy'|]; [|done].
      exfalso. apply Hx. rewrite Hid, <- Hy'.
      apply list_elem_of_fmap. exists y. split; [done|].
      by apply list_elem_of_lookup_2 in Hy. }
    destruct (decide (P x)), (decide (P (set x))); simpl; lia.
  - assert (Defect.id x ≠ target) as Hne.
    { intros Hx'. apply Hx. rewrite Hx', <- Hid.
      apply list_elem_of_fmap. eauto. }
    rewrite (decide_False (P := Defect.id x = target)) by done.
    specialize (IH Hnodup Hin).
    destruct (decide (P x)); simpl; lia.
Qed.

(** X21: in a store without duplicate ids, [update_status] on an
    existing defect moves that defect, and nothing else, between the
    status counts: for every status the number of defects a search by
    it returns goes down by one if the defect had it and up by one if
    the defect gets it.  In particular [reopened_count] counts the
    defects that are Reopened now, not those that ever were. *)
Theorem update_status_moves_counts s now_date now_log defect_id new_status
    who comment d :
  NoDup (Defect.id <$> defects s) →
  select_by_id s defect_id = Some d →
  let s' :=
    (update_status s now_date now_log defect_id new_status who comment).1 in
  (∀ st,
     (length (search_defects s' (by_status_criteria st))
      + (if decide (Defect.status d = st) then 1 else 0)
      = length (search_defects s (by_status_criteria st))
        + (if decide (DefectStatus.value new_status = st) then 1 else 0))%nat) ∧
  (reopened_count s' + (if decide (Defect.status d = "Reopened") then 1 else 0)
   = reopened_count s
     + (if decide (new_status = DefectStatus.REOPENED) then 1 else 0))%nat.
Proof.
  intros Hnodup Hd s'.
  assert (defects s'
          = update_where_id defect_id
              (call_update (Some d)
                 (UpdateStatus now_date now_log defect_id new_status who
                    comment))
              (defects s)) as Hrows.
  { unfold s'.
    change (update_status s now_date now_log defect_id new_status who comment)
      with (run_call s (UpdateStatus now_date now_log defect_id new_status
                          who comment)).
    rewrite run_call_defects. simpl. by rewrite Hd. }
  assert (∀ x, Defect.status
                 (call_update (Some d)
                    (UpdateStatus now_date now_log defect_id new_status who
                       comment) x)
               = DefectStatus.value new_status) as Hstatus
    by (intros x; by destruct new_status).
  apply select_by_id_Some in Hd as [Hin Hid].
  assert (∀ st,
            (length (filter (λ d, Defect.status d = st) (defects s'))
             + (if decide (Defect.status d = st) then 1 else 0)
             = length (filter (λ d, Defect.status d = st) (defects s))
               + (if decide (DefectStatus.value new_status = st)
                  then 1 else 0))%nat) as Hcount.
  { intros st. rewrite Hrows.
    pose proof (filter_length_update (λ d, Defect.status d = st) defect_id
                  (call_update (Some d)
                     (UpdateStatus now_date now_log defect_id new_status who
                        comment))
                  (defects s) d Hnodup Hin Hid) as Hf.
    simpl in Hf. rewrite Hstatus in Hf. exact Hf. }
  split.
  - intros st. rewrite !search_by_status. apply Hcount.
  - unfold reopened_count. rewrite (Hcount "Reopened").
    destruct new_status; simpl; done.
Qed.

Lemma update_status_moves_counts_witness :
  NoDup (Defect.id <$> defects refix_reopened) ∧
  ∃ d,
    select_by_id refix_reopened 1 = Some d ∧
    let s' :=
      (update_status refix_reopened 20 21 1 DefectStatus.CLOSED "bob"
         None).1 in
    (∀ st,
       (length (search_defects s' (by_status_criteria st))
        + (if decide (Defect.status d = st) then 1 else 0)
        = length (search_defects refix_reopened (by_status_criteria st))
          + (if decide (DefectStatus.value DefectStatus.CLOSED = st)
             then 1 else 0))%nat) ∧
    (reopened_count s'
     + (if decide (Defect.status d = "Reopened") then 1 else 0)
     = reopened_count refix_reopened
       + (if decide (DefectStatus.CLOSED = DefectStatus.REOPENED)
          then 1 else 0))%nat.
Proof.
  assert (NoDup (Defect.id <$> defects refix_reopened)) as Hnodup.
  { simpl. apply NoDup_singleton. }
  split; [exact Hnodup|].
  eexists. split; [reflexivity|].
  apply (update_status_moves_counts refix_reopened 20 21 1
           DefectStatus.CLOSED "bob" None).
  - exact Hnodup.
  - reflexivity.
Defined.

(** ** [add_resolution]: the log *)

(** X22: with a true [resolved_by], [add_resolution] appends one log
    row for the given id, whether or not a defect carries it; the row
    names the field [resolution], has no old value, whatever resolution
    was stored before, and its comment spells an omitted root cause as
    [None].  Without a true [resolved_by] the log is unchanged.  The
    table of defects is the same in both cases. *)
Theorem add_resolution_log s now_log defect_id resolution root_cause
    resolved_by :
  let '(s', _) :=
    add_resolution s now_log defect_id resolution root_cause resolved_by in
  defects s'
  = defects (add_resolution s now_log defect_id resolution root_cause None).1 ∧
  (truthy resolved_by = false → defect_history s' = defect_history s) ∧
  (truthy resolved_by = true →
   ∃ h,
     defect_history s' = defect_history s ++ [h] ∧
     History.defect_id h = defect_id ∧
     Some (History.changed_by h) = resolved_by ∧
     History.change_date h = now_log ∧
     History.field_changed h = Some "resolution" ∧
     History.old_value h = None ∧
     History.new_value h = Some resolution ∧
     History.comment h
     = Some ("Root cause: " +:+ match root_cause with
                                | Some cause => cause
                                | None => "None"
                                end)).
Proof.
  rewrite !add_resolution_unfold. simpl.
  destruct resolved_by as [who|]; [|done].
  destruct (truthy (Some who)) eqn:Hwho; [|done].
  split; [done|]. split; [done|]. intros _.
  eexists. split; [done|]. by destruct root_cause.
Qed.
